(** * The query language core of rdb_protocol: scopes and JSON streams

  A shallow embedding of [src/rdb_protocol/query_language.hpp]:
  the lexical scope stack [variable_scope_t], the implicit value stack
  [implicit_value_t], their scoped sentinels, and the family of lazy
  streams built on [json_stream_t]. *)

From Stdlib Require Import ZArith Lia.
From stdpp Require Import base option list gmap strings.

Set Default Proof Using "Type".
Open Scope nat_scope.

(** ** Exit paths

  A guarded region of the evaluator either returns a value or leaves by
  a thrown [bad_query_exc_t] / [runtime_exc_t]; both carry a message. *)

Inductive outcome (V : Type) : Type :=
| Returned (v : V)
| Thrown (message : string).

Arguments Returned {V} v.
Arguments Thrown {V} message.

(** ** [variable_scope_t<T>]

  [scopes] is a [std::deque<std::map<std::string, T> >] whose front is
  the newest frame: a list of finite maps, head first. *)

Module VariableScope.
Section WithPayload.
Context {T : Type}.

Local Abbreviation scopes_t := (list (gmap string T)).

(** [put_in_scope]: [rassert(!scopes.empty()); scopes.front()[name] = t].
    [None] is the failed assertion. *)
Definition put_in_scope (name : string) (t : T) (scopes : scopes_t)
  : option scopes_t :=
  match scopes with
  | [] => None
  | front :: older => Some (<[name := t]> front :: older)
  end.

(** [get]: walk the deque from [begin()] to [end()], return the first
    binding found.  [None] is the [unreachable(...)] after the loop. *)
Fixpoint get (name : string) (scopes : scopes_t) : option T :=
  match scopes with
  | [] => None
  | it :: rest =>
      match it !! name with
      | Some jt => Some jt
      | None => get name rest
      end
  end.

Fixpoint is_in_scope (name : string) (scopes : scopes_t) : bool :=
  match scopes with
  | [] => false
  | it :: rest =>
      match it !! name with
      | Some _ => true
      | None => is_in_scope name rest
      end
  end.

Definition push (scopes : scopes_t) : scopes_t := ∅ :: scopes.

(** [pop]: [scopes.pop_front()], undefined on an empty deque ([None]). *)
Definition pop (scopes : scopes_t) : option scopes_t :=
  match scopes with
  | [] => None
  | _ :: older => Some older
  end.

(** The inner loop of [dump]: every entry of one frame is inserted
    unless the output already counts its key. *)
Definition dump_frame (sit : gmap string T) (map : gmap string T)
  : gmap string T :=
  map_fold (fun name t acc =>
              match acc !! name with
              | Some _ => acc
              | None => <[name := t]> acc
              end) map sit.

(** [dump]: [map->clear()], then the frames from newest to oldest. *)
Definition dump (scopes : scopes_t) : gmap string T :=
  foldl (fun map sit => dump_frame sit map) ∅ scopes.

(** [new_scope_t]: the constructor pushes, the destructor pops.  The
    destructor runs when the guarded region is left, whichever way it is
    left, so both exit paths of [body] go through [pop]. *)
Definition new_scope_t {V : Type}
    (body : scopes_t -> option (outcome V * scopes_t))
    (parent : scopes_t) : option (outcome V * scopes_t) :=
  match body (push parent) with
  | None => None
  | Some (Returned v, inner) =>
      match pop inner with
      | Some after => Some (Returned v, after)
      | None => None
      end
  | Some (Thrown message, inner) =>
      match pop inner with
      | Some after => Some (Thrown message, after)
      | None => None
      end
  end.

(** A region is balanced when, run on a stack that has a frame to work
    in, it completes and leaves as many frames as it found. *)
Definition balanced {V : Type}
    (body : scopes_t -> option (outcome V * scopes_t)) : Prop :=
  forall scopes, scopes <> [] ->
    exists o after, body scopes = Some (o, after)
                    /\ length after = length scopes.

End WithPayload.
End VariableScope.

(** ** [implicit_value_t<T>]

  [scopes] is a [std::deque<boost::optional<T> >], front first. *)

Module ImplicitValue.
Section WithPayload.
Context {T : Type}.

Local Abbreviation scopes_t := (list (option T)).

Definition push (scopes : scopes_t) : scopes_t := None :: scopes.

Definition push_value (t : T) (scopes : scopes_t) : scopes_t :=
  Some t :: scopes.

Definition pop (scopes : scopes_t) : option scopes_t :=
  match scopes with
  | [] => None
  | _ :: older => Some older
  end.

(** The constructor: an empty deque, then [push()]. *)
Definition implicit_value_t : scopes_t := push [].

(** [has_value]: [return scopes.front()], the optional converted to
    bool.  The outer [None] is [front()] of an empty deque. *)
Definition has_value (scopes : scopes_t) : option bool :=
  match scopes with
  | [] => None
  | front :: _ => Some (bool_decide (is_Some front))
  end.

(** [get_value]: [return *scopes.front()].  [None] is [front()] of an
    empty deque or the dereference of an empty optional. *)
Definition get_value (scopes : scopes_t) : option T :=
  match scopes with
  | [] => None
  | front :: _ => front
  end.

(** [impliciter_t]: either constructor pushes ([init] is the pushed
    optional: [None] for [push()], [Some t] for [push(t)]), the
    destructor pops on both exit paths. *)
Definition impliciter_t {V : Type} (init : option T)
    (body : scopes_t -> option (outcome V * scopes_t))
    (parent : scopes_t) : option (outcome V * scopes_t) :=
  let entered :=
    match init with
    | None => push parent
    | Some t => push_value t parent
    end in
  match body entered with
  | None => None
  | Some (Returned v, inner) =>
      match pop inner with
      | Some after => Some (Returned v, after)
      | None => None
      end
  | Some (Thrown message, inner) =>
      match pop inner with
      | Some after => Some (Thrown message, after)
      | None => None
      end
  end.

Definition balanced {V : Type}
    (body : scopes_t -> option (outcome V * scopes_t)) : Prop :=
  forall scopes, scopes <> [] ->
    exists o after, body scopes = Some (o, after)
                    /\ length after = length scopes.

End WithPayload.
End ImplicitValue.

(** ** [json_stream_t]

    The abstract class has one virtual method, [next()], which returns a
    [boost::shared_ptr<scoped_cJSON_t>]: a document, or the null pointer
    as the exhaustion sentinel ([option doc]).  An object of some
    subclass is its private state together with its [next]; [calls] is a
    ghost counter of the [next()] calls the object has served, which
    [step] cannot see. *)

Module JsonStream.
Section WithDocuments.
Context {doc : Type}.

Record json_stream_t : Type := Object {
  st : Type;
  cur : st;
  step : st -> option doc * st;
  calls : nat
}.

Definition next (s : json_stream_t) : option doc * json_stream_t :=
  let '(res, c) := step s (cur s) in
  (res, Object (st s) c (step s) (S (calls s))).

(** *** Machines

    Every concrete stream below is a state with a [next] function.  A
    [next] that loops on its upstream takes the number of iterations it
    may run and returns [None] when that bound is too small. *)

Section Machine.
Context {St : Type}.

(** The object after [k] calls, the result of the call after those, and
    the results of the first [k] calls. *)
Definition skip (nx : St -> option doc * St) (k : nat) (s : St) : St :=
  Nat.iter k (fun x => snd (nx x)) s.

Definition result_at (nx : St -> option doc * St) (s : St) (k : nat)
  : option doc :=
  fst (nx (skip nx k s)).

Fixpoint run (nx : St -> option doc * St) (k : nat) (s : St)
  : list (option doc) * St :=
  match k with
  | 0 => ([], s)
  | S k' =>
      let '(res, s') := nx s in
      let '(rest, s'') := run nx k' s' in
      (res :: rest, s'')
  end.

(** Calling [next] until the first sentinel and collecting the documents:
    the loop [while (json = stream->next()) data.push_back(json)]. *)
Fixpoint drain (nx : St -> option (option doc * St)) (fuel : nat) (s : St)
  : option (list doc * St) :=
  match fuel with
  | 0 => None
  | S fuel' =>
      match nx s with
      | None => None
      | Some (None, s') => Some ([], s')
      | Some (Some json, s') =>
          match drain nx fuel' s' with
          | Some (data, s'') => Some (json :: data, s'')
          | None => None
          end
      end
  end.

Definition total (nx : St -> option doc * St)
  : St -> option (option doc * St) :=
  fun s => Some (nx s).

(** *** The exhaustion contract, over the calls a stream can serve *)

Definition call_of (nx : St -> option doc * St)
  : St -> option doc -> St -> Prop :=
  fun s res s' => nx s = (res, s').

Definition call_within (nx : nat -> St -> option (option doc * St))
  : St -> option doc -> St -> Prop :=
  fun s res s' => exists fuel, nx fuel s = Some (res, s').

Inductive reaches (call : St -> option doc -> St -> Prop) : St -> St -> Prop :=
| reaches_here s : reaches call s s
| reaches_call s res s' s'' :
    call s res s' -> reaches call s' s'' -> reaches call s s''.

(** From [s] on every call returns, and returns the sentinel. *)
Definition exhausted (call : St -> option doc -> St -> Prop) (s : St) : Prop :=
  forall s', reaches call s s' ->
    (exists s'', call s' None s'')
    /\ (forall res s'', call s' res s'' -> res = None).

(** Once a call has returned the sentinel, so does every later call. *)
Definition obeys_contract (call : St -> option doc -> St -> Prop) (s : St)
  : Prop :=
  forall s1 s2, reaches call s s1 -> call s1 None s2 -> exhausted call s2.

End Machine.

(** The documents among a list of results. *)
Definition documents (results : list (option doc)) : list doc :=
  omap id results.

End WithDocuments.
Arguments json_stream_t : clear implicits.
End JsonStream.
Import JsonStream.

Arguments skip : simpl never.
Arguments result_at : simpl never.

(** ** [in_memory_stream_t] *)

Module InMemory.
Section WithDocuments.
Context {doc : Type}.

(** The class holds [cJSON_list_t data], a list of
    [shared_ptr<scoped_cJSON_t>]: an entry is a document or the null
    pointer.  [next] returns the front entry as it is. *)
Definition next (data : list (option doc)) : option doc * list (option doc) :=
  match data with
  | [] => (None, [])
  | res :: rest => (res, rest)
  end.

(** [in_memory_stream_t(begin, end)] as a [json_stream_t]: the range is
    copied into [data], null entries included. *)
Definition in_memory_stream_t (data : list (option doc)) : json_stream_t doc :=
  Object (list (option doc)) data next 0.

(** [in_memory_stream_t(stream)]: drain [stream] into [data]. *)
Definition from_stream (fuel : nat) (stream : json_stream_t doc)
  : option (list doc * json_stream_t doc) :=
  drain (total JsonStream.next) fuel stream.

End WithDocuments.
End InMemory.

(** ** [stream_multiplexer_t] and its consumers [stream_t] *)

Module Multiplexer.
Section WithDocuments.
Context {doc : Type}.

Record stream_multiplexer_t : Type := {
  stream : json_stream_t doc;
  data : list doc
}.

Definition stream_multiplexer (up : json_stream_t doc) : stream_multiplexer_t :=
  {| stream := up; data := [] |}.

Definition maybe_read_more (m : stream_multiplexer_t)
  : bool * stream_multiplexer_t :=
  match JsonStream.next (stream m) with
  | (Some json, up) => (true, {| stream := up; data := data m ++ [json] |})
  | (None, up) => (false, {| stream := up; data := data m |})
  end.

(** The loop [while (index >= parent->data.size())] of [stream_t::next].
    Its variant is [gap = index + 1 - data.size()]: the test holds iff
    [gap] is positive, and a successful [maybe_read_more] lowers it by
    one.  The result is [false] when [maybe_read_more] failed. *)
Fixpoint read_until (gap : nat) (m : stream_multiplexer_t)
  : bool * stream_multiplexer_t :=
  match gap with
  | 0 => (true, m)
  | S gap' =>
      match maybe_read_more m with
      | (true, m') => read_until gap' m'
      | (false, m') => (false, m')
      end
  end.

(** [stream_t::next] on the shared [parent] object and the consumer's own
    [index]; it hands back the new state of both. *)
Definition next (parent : stream_multiplexer_t) (index : nat)
  : option doc * stream_multiplexer_t * nat :=
  match read_until (S index - length (data parent)) parent with
  | (true, parent') => (data parent' !! index, parent', S index)
  | (false, parent') => (None, parent', index)
  end.

(** One multiplexer and the consumers derived from it: every [stream_t]
    holds a [shared_ptr] to the same [parent], and an [index] of its own. *)
Record shared_t : Type := {
  parent : stream_multiplexer_t;
  indices : list nat
}.

(** [n] consumers constructed over one multiplexer, each with [index(0)]. *)
Definition consumers (n : nat) (m : stream_multiplexer_t) : shared_t :=
  {| parent := m; indices := replicate n 0 |}.

(** Consumer [c] calls [next()]; [None] when there is no such consumer. *)
Definition consumer_next (c : nat) (σ : shared_t)
  : option (option doc * shared_t) :=
  match indices σ !! c with
  | None => None
  | Some index =>
      let '(res, parent', index') := next (parent σ) index in
      Some (res, {| parent := parent'; indices := <[c := index']> (indices σ) |})
  end.

(** The consumers call [next()] in the order [schedule] gives; the log
    pairs every call with its result. *)
Fixpoint run_schedule (schedule : list nat) (σ : shared_t)
  : list (nat * option doc) * shared_t :=
  match schedule with
  | [] => ([], σ)
  | c :: later =>
      match consumer_next c σ with
      | None => run_schedule later σ
      | Some (res, σ') =>
          let '(log, σ'') := run_schedule later σ' in
          ((c, res) :: log, σ'')
      end
  end.

(** What consumer [c] was handed, in order. *)
Definition results_of (c : nat) (log : list (nat * option doc))
  : list (option doc) :=
  map snd (List.filter (fun e => Nat.eqb (fst e) c) log).

(** One call of consumer [c], after any calls of the other consumers. *)
Definition call_of_consumer (c : nat) : shared_t -> option doc -> shared_t -> Prop :=
  fun σ res σ' =>
    exists others, Forall (fun c' => c' <> c) others
                   /\ consumer_next c (snd (run_schedule others σ)) = Some (res, σ').

(** *** Invariants of a multiplexer over the upstream [up]

    After [k] calls to the upstream, the multiplexer holds the upstream
    in the state those calls left it in, and [data] is the documents
    among their results, in order. *)
Definition buffers (up : json_stream_t doc) (k : nat) (m : stream_multiplexer_t)
  : Prop :=
  stream m = skip JsonStream.next k up
  /\ data m = documents (fst (run JsonStream.next k up)).

(** The upstream, called on its own, keeps to the exhaustion contract. *)
Definition sticky (up : json_stream_t doc) : Prop :=
  forall i j, i <= j ->
    result_at JsonStream.next up i = None ->
    result_at JsonStream.next up j = None.

(** A consumer at [index] that has been handed [received] so far: it has
    read the first [index] buffered documents, and when the upstream is
    sticky its results are, one for one, the results of the upstream. *)
Definition consumer_inv (up : json_stream_t doc) (buffer : list doc)
    (index : nat) (received : list (option doc)) : Prop :=
  index <= length buffer
  /\ documents received = take index buffer
  /\ (sticky up ->
      received = map (result_at JsonStream.next up) (seq 0 (length received))
      /\ (index = length received
          \/ (index <= length received
              /\ result_at JsonStream.next up index = None))).

End WithDocuments.
Arguments stream_multiplexer_t : clear implicits.
Arguments shared_t : clear implicits.
End Multiplexer.

(** ** [union_stream_t] *)

Module Union.
Section WithDocuments.
Context {doc : Type}.

(** [streams] is a list of [shared_ptr<json_stream_t>]: the address of
    a stream object, which the list may name more than once.  [hd] is an
    iterator into [streams]: the position it points at, with
    [hd = length streams] for [streams.end()]. *)
Record union_stream_t : Type := {
  streams : list nat;
  hd : nat
}.

Definition union_stream (_streams : list nat) : union_stream_t :=
  {| streams := _streams; hd := 0 |}.

(** The stream objects, by address, and the write-back of one of them
    after a call to its [next()]. *)
Definition update (l : nat) (s : json_stream_t doc)
    (objects : nat -> json_stream_t doc) : nat -> json_stream_t doc :=
  fun l' => if decide (l' = l) then s else objects l'.

(** The loop [while (hd != streams.end())] over the pointers from [*hd]
    on: the result, the objects after the calls made on them, and the
    number of times [++hd] ran. *)
Fixpoint scan (rest : list nat) (objects : nat -> json_stream_t doc)
  : option doc * (nat -> json_stream_t doc) * nat :=
  match rest with
  | [] => (None, objects, 0)
  | l :: later =>
      match JsonStream.next (objects l) with
      | (Some json, s') => (Some json, update l s' objects, 0)
      | (None, s') =>
          let '(res, objects', advanced) := scan later (update l s' objects) in
          (res, objects', S advanced)
      end
  end.

(** [next] on the stream objects and the union stream itself. *)
Definition next (σ : (nat -> json_stream_t doc) * union_stream_t)
  : option doc * ((nat -> json_stream_t doc) * union_stream_t) :=
  let '(objects, u) := σ in
  let '(res, objects', advanced) := scan (drop (hd u) (streams u)) objects in
  (res, (objects', {| streams := streams u; hd := hd u + advanced |})).

(** Stream objects laid out at the addresses [0], [1], ... *)
Definition objects_of (l : list (json_stream_t doc)) (unused : json_stream_t doc)
  : nat -> json_stream_t doc :=
  fun a => default unused (l !! a).

End WithDocuments.
End Union.

(** ** [filter_stream_t<P>] *)

Module Filter.
Section WithDocuments.
Context {doc : Type}.

Record filter_stream_t : Type := {
  stream : json_stream_t doc;
  p : doc -> bool
}.

Definition filter_stream (_stream : json_stream_t doc) (_p : doc -> bool)
  : filter_stream_t :=
  {| stream := _stream; p := _p |}.

(** [while (json = stream->next()) if (p(json)) return json;] with one
    unit of [fuel] for every iteration. *)
Fixpoint next (fuel : nat) (w : filter_stream_t)
  : option (option doc * filter_stream_t) :=
  match fuel with
  | 0 => None
  | S fuel' =>
      match JsonStream.next (stream w) with
      | (Some json, up) =>
          if p w json
          then Some (Some json, {| stream := up; p := p w |})
          else next fuel' {| stream := up; p := p w |}
      | (None, up) => Some (None, {| stream := up; p := p w |})
      end
  end.

End WithDocuments.
Arguments filter_stream_t : clear implicits.
End Filter.

(** ** [mapping_stream_t<F>] *)

Module Mapping.
Section WithDocuments.
Context {doc : Type}.

(** Modelled from the spec: the functions that instantiate the template
    parameter [F] are not in this header.  The spec has Map(f) one-in,
    one-out over JSON documents, so [f] takes a document to a document:
    what [next] returns for a document is a document, not the null
    pointer. *)
Record mapping_stream_t : Type := {
  stream : json_stream_t doc;
  f : doc -> doc
}.

Definition mapping_stream (_stream : json_stream_t doc) (_f : doc -> doc)
  : mapping_stream_t :=
  {| stream := _stream; f := _f |}.

Definition next (w : mapping_stream_t) : option doc * mapping_stream_t :=
  match JsonStream.next (stream w) with
  | (Some json, up) => (Some (f w json), {| stream := up; f := f w |})
  | (None, up) => (None, {| stream := up; f := f w |})
  end.

End WithDocuments.
Arguments mapping_stream_t : clear implicits.
End Mapping.

(** ** [concat_mapping_stream_t<F>] *)

Module ConcatMapping.
Section WithDocuments.
Context {doc : Type}.

(** Modelled from the spec: the functions that instantiate the template
    parameter [F] are not in this header.  The spec has every upstream
    document yield a substream, so [f] takes a document to a stream.
    [substream] is a pointer, null when there is no current substream. *)
Record concat_mapping_stream_t : Type := {
  stream : json_stream_t doc;
  substream : option (json_stream_t doc);
  f : doc -> json_stream_t doc
}.

(** The constructor calls [stream->next()] once. *)
Definition concat_mapping_stream (_stream : json_stream_t doc)
    (_f : doc -> json_stream_t doc) : concat_mapping_stream_t :=
  match JsonStream.next _stream with
  | (Some json, up) => {| stream := up; substream := Some (_f json); f := _f |}
  | (None, up) => {| stream := up; substream := None; f := _f |}
  end.

(** The loop [while (!res)], one unit of [fuel] for every iteration. *)
Fixpoint next (fuel : nat) (w : concat_mapping_stream_t)
  : option (option doc * concat_mapping_stream_t) :=
  match fuel with
  | 0 => None
  | S fuel' =>
      match substream w with
      | None => Some (None, w)
      | Some sub =>
          match JsonStream.next sub with
          | (Some res, sub') =>
              Some (Some res,
                    {| stream := stream w; substream := Some sub'; f := f w |})
          | (None, _) =>
              match JsonStream.next (stream w) with
              | (Some json, up) =>
                  next fuel' {| stream := up; substream := Some (f w json);
                                f := f w |}
              | (None, up) =>
                  next fuel' {| stream := up; substream := None; f := f w |}
              end
          end
      end
  end.

End WithDocuments.
Arguments concat_mapping_stream_t : clear implicits.
End ConcatMapping.

(** ** [limit_stream_t] *)

Module Limit.
Section WithDocuments.
Context {doc : Type}.

Record limit_stream_t : Type := {
  stream : json_stream_t doc;
  limit : Z
}.

(** The constructor; [None] is the failed [guarantee(limit >= 0)]. *)
Definition limit_stream (_stream : json_stream_t doc) (_limit : Z)
  : option limit_stream_t :=
  if (0 <=? _limit)%Z
  then Some {| stream := _stream; limit := _limit |}
  else None.

Definition next (w : limit_stream_t) : option doc * limit_stream_t :=
  if (limit w =? 0)%Z
  then (None, w)
  else
    let '(res, up) := JsonStream.next (stream w) in
    (res, {| stream := up; limit := (limit w - 1)%Z |}).

End WithDocuments.
Arguments limit_stream_t : clear implicits.
End Limit.

(** ** Sample inputs *)

Module Samples.

(** Three frames, newest first; ["x"] is bound in the two older ones. *)
Definition scopes : list (gmap string nat) :=
  [ {["y" := 1]}; {["x" := 2]}; <["x" := 3]> {["z" := 4]} ].

(** A region that binds a name and then throws. *)
Definition failing_region (scopes : list (gmap string nat))
  : option (outcome nat * list (gmap string nat)) :=
  match VariableScope.put_in_scope "row" 7 scopes with
  | Some scopes' => Some (Thrown "runtime error", scopes')
  | None => None
  end.

(** A region of the implicit stack that reads the implicit value. *)
Definition reading_region (scopes : list (option nat))
  : option (outcome nat * list (option nat)) :=
  match ImplicitValue.get_value scopes with
  | Some t => Some (Returned t, scopes)
  | None => Some (Thrown "no implicit value", scopes)
  end.

Definition upstream : json_stream_t nat :=
  InMemory.in_memory_stream_t [Some 1; Some 2; Some 3; Some 4].

Definition short_upstream : json_stream_t nat :=
  InMemory.in_memory_stream_t [Some 1; Some 2].

Definition twice (d : nat) : json_stream_t nat :=
  InMemory.in_memory_stream_t [Some d; Some d].

(** Two consumers of one multiplexer, and an order of their calls. *)
Definition two_consumers : Multiplexer.shared_t nat :=
  Multiplexer.consumers 2 (Multiplexer.stream_multiplexer short_upstream).

Definition schedule : list nat := [0; 1; 0; 0; 1; 1; 0; 1].

(** Three stream objects at the addresses 0, 1 and 2. *)
Definition objects : nat -> json_stream_t nat :=
  Union.objects_of [short_upstream;
                    InMemory.in_memory_stream_t [];
                    InMemory.in_memory_stream_t [Some 3]]
                   (InMemory.in_memory_stream_t []).

(** Two consumers of a multiplexer over the longer upstream. *)
Definition two_readers : Multiplexer.shared_t nat :=
  Multiplexer.consumers 2 (Multiplexer.stream_multiplexer upstream).

End Samples.

(** * Properties of the scope stacks *)

Section ScopeFacts.
Context {T : Type}.
Implicit Types (scopes older : list (gmap string T)) (name : string).

Lemma is_in_scope_get name scopes :
  VariableScope.is_in_scope name scopes = true <->
  is_Some (VariableScope.get name scopes).
Proof.
  induction scopes as [|it rest IH]; simpl.
  - split; [discriminate | intros [? ?]; discriminate].
  - destruct (it !! name); [split; eauto | exact IH].
Qed.

(** [get] stops at the first frame, from the front, that binds [name]. *)
Lemma get_newest name scopes t :
  VariableScope.get name scopes = Some t <->
  exists newer it older,
    scopes = newer ++ it :: older
    /\ Forall (fun fr => fr !! name = None) newer
    /\ it !! name = Some t.
Proof.
  split.
  - induction scopes as [|fr rest IH]; simpl; [discriminate|].
    destruct (fr !! name) as [v|] eqn:Hfr.
    + intros [= ->]. exists [], fr, rest. auto.
    + intros Hget. destruct (IH Hget) as (newer & it & older & -> & Hnone & Hit).
      exists (fr :: newer), it, older. auto.
  - intros (newer & it & older & -> & Hnone & Hit).
    induction Hnone as [|fr newer Hfr _ IH]; simpl.
    + by rewrite Hit.
    + by rewrite Hfr.
Qed.

Lemma dump_frame_lookup (sit map : gmap string T) name :
  VariableScope.dump_frame sit map !! name =
  match map !! name with
  | Some t => Some t
  | None => sit !! name
  end.
Proof.
  unfold VariableScope.dump_frame. revert name.
  apply (map_fold_weak_ind
           (fun acc seen => forall name,
                acc !! name = match map !! name with
                              | Some t => Some t
                              | None => seen !! name
                              end)).
  - intros name. rewrite lookup_empty. by destruct (map !! name).
  - intros i x seen acc Hfresh IH name.
    pose proof (IH i) as Hi. rewrite Hfresh in Hi.
    destruct (decide (i = name)) as [->|Hne].
    + rewrite lookup_insert_eq.
      destruct (acc !! name) as [y|] eqn:Hacc.
      * rewrite Hacc. by destruct (map !! name).
      * rewrite lookup_insert_eq. by destruct (map !! name).
    + rewrite (lookup_insert_ne seen) by done.
      destruct (acc !! i); [apply IH|].
      rewrite lookup_insert_ne by done. apply IH.
Qed.

Lemma dump_from_lookup scopes (map : gmap string T) name :
  foldl (fun map sit => VariableScope.dump_frame sit map) map scopes !! name =
  match map !! name with
  | Some t => Some t
  | None => VariableScope.get name scopes
  end.
Proof.
  revert map. induction scopes as [|it rest IH]; intros map; simpl.
  - by destruct (map !! name).
  - rewrite IH, dump_frame_lookup.
    destruct (map !! name); [done|]. by destruct (it !! name).
Qed.

(** C7: when [is_in_scope(name)] holds, [get(name)] returns a value, the
    one bound in the newest frame that binds [name]: no frame in front of
    it binds [name].  The [unreachable] branch is not taken. *)
Theorem get_returns_newest_binding name scopes :
  VariableScope.is_in_scope name scopes = true ->
  exists t,
    VariableScope.get name scopes = Some t
    /\ exists newer it older,
         scopes = newer ++ it :: older
         /\ Forall (fun fr => fr !! name = None) newer
         /\ it !! name = Some t.
Proof.
  intros Hin. apply is_in_scope_get in Hin as [t Ht].
  exists t. split; [done|]. by apply get_newest.
Qed.

(** C9: [dump] yields one map that agrees with [get] on every name: a
    name in scope is sent to the value of the newest frame binding it,
    which is what [get] returns, and a name in no frame is absent. *)
Theorem dump_agrees_with_get name scopes :
  VariableScope.dump scopes !! name = VariableScope.get name scopes
  /\ (VariableScope.is_in_scope name scopes = true ->
      exists t newer it older,
        VariableScope.dump scopes !! name = Some t
        /\ scopes = newer ++ it :: older
        /\ Forall (fun fr => fr !! name = None) newer
        /\ it !! name = Some t)
  /\ (VariableScope.is_in_scope name scopes = false ->
      VariableScope.dump scopes !! name = None).
Proof.
  assert (Hdump : VariableScope.dump scopes !! name
                  = VariableScope.get name scopes).
  { unfold VariableScope.dump. rewrite dump_from_lookup.
    by rewrite lookup_empty. }
  split; [done|]. split.
  - intros Hin. apply is_in_scope_get in Hin as [t Ht].
    apply get_newest in Ht as Hnew.
    destruct Hnew as (newer & it & older & ? & ? & ?).
    exists t, newer, it, older. by rewrite Hdump.
  - intros Hout. rewrite Hdump.
    destruct (VariableScope.get name scopes) as [t|] eqn:Hget; [|done].
    assert (VariableScope.is_in_scope name scopes = true) as Hin
      by (apply is_in_scope_get; eauto).
    congruence.
Qed.

End ScopeFacts.

(** * Sentinels and the implicit value stack *)

Section SentinelFacts.
Context {T V : Type}.

(** A guarded region whose body is balanced is balanced itself, so
    guarded regions nest. *)
Lemma new_scope_t_balanced
    (body : list (gmap string T) -> option (outcome V * list (gmap string T))) :
  VariableScope.balanced body ->
  VariableScope.balanced (VariableScope.new_scope_t body).
Proof.
  intros Hbody scopes _. unfold VariableScope.new_scope_t.
  destruct (Hbody (VariableScope.push scopes)) as (o & inner & -> & Hlen);
    [discriminate|].
  destruct inner as [|fr after]; [discriminate|].
  simpl in Hlen. exists o, after.
  split; [by destruct o | lia].
Qed.

Lemma impliciter_t_balanced (init : option T)
    (body : list (option T) -> option (outcome V * list (option T))) :
  ImplicitValue.balanced body ->
  ImplicitValue.balanced (ImplicitValue.impliciter_t init body).
Proof.
  intros Hbody scopes _. unfold ImplicitValue.impliciter_t.
  set (entered := match init with
                  | None => ImplicitValue.push scopes
                  | Some t => ImplicitValue.push_value t scopes
                  end).
  assert (length entered = S (length scopes)) as Hentered
    by (subst entered; by destruct init).
  destruct (Hbody entered) as (o & inner & -> & Hlen).
  { subst entered. by destruct init. }
  destruct inner as [|fr after]; [simpl in Hlen; lia|].
  simpl in Hlen. exists o, after.
  split; [by destruct o | lia].
Qed.

(** C5: the constructor of a sentinel pushes exactly one frame and its
    destructor pops exactly one, for [new_scope_t] and for both
    constructors of [impliciter_t].  Hence whenever the guarded body
    leaves as many frames as it was entered with, the guarded region ends
    with the number of frames it started with, on both exit paths: [o] is
    the body's outcome, a returned value or a thrown error, and it is
    passed on unchanged. *)
Theorem sentinels_restore_frame_count :
  (forall parent : list (gmap string T),
      length (VariableScope.push parent) = S (length parent))
  /\ (forall inner after : list (gmap string T),
         VariableScope.pop inner = Some after ->
         length inner = S (length after))
  /\ (forall body (parent inner : list (gmap string T)) (o : outcome V),
         body (VariableScope.push parent) = Some (o, inner) ->
         length inner = length (VariableScope.push parent) ->
         exists after,
           VariableScope.new_scope_t body parent = Some (o, after)
           /\ length after = length parent)
  /\ (forall (t : T) (parent : list (option T)),
         length (ImplicitValue.push parent) = S (length parent)
         /\ length (ImplicitValue.push_value t parent) = S (length parent))
  /\ (forall inner after : list (option T),
         ImplicitValue.pop inner = Some after ->
         length inner = S (length after))
  /\ (forall init body (parent inner : list (option T)) (o : outcome V),
         body (match init with
               | None => ImplicitValue.push parent
               | Some t => ImplicitValue.push_value t parent
               end) = Some (o, inner) ->
         length inner = S (length parent) ->
         exists after,
           ImplicitValue.impliciter_t init body parent = Some (o, after)
           /\ length after = length parent).
Proof.
  repeat split.
  - intros [|fr after] after'; simpl; [discriminate|]. by intros [= ->].
  - intros body parent inner o Hbody Hlen.
    unfold VariableScope.new_scope_t. rewrite Hbody.
    destruct inner as [|fr after]; [discriminate|].
    simpl in Hlen. exists after. split; [by destruct o | lia].
  - intros [|fr after] after'; simpl; [discriminate|]. by intros [= ->].
  - intros init body parent inner o Hbody Hlen.
    unfold ImplicitValue.impliciter_t. rewrite Hbody.
    destruct inner as [|fr after]; [discriminate|].
    simpl in Hlen. exists after. split; [by destruct o | lia].
Qed.

(** C6: [has_value] and [get_value] depend on the front frame alone.
    After [push()] the stack reports no value, whatever the outer frames
    hold, and [get_value] has nothing to return; after [push(t)] it
    reports a value, and that value is [t].  The two reports differ. *)
Theorem implicit_lookup_reads_front_frame_only :
  (forall (front : option T) (outer outer' : list (option T)),
      ImplicitValue.has_value (front :: outer)
      = ImplicitValue.has_value (front :: outer')
      /\ ImplicitValue.get_value (front :: outer)
         = ImplicitValue.get_value (front :: outer'))
  /\ (forall outer : list (option T),
         ImplicitValue.has_value (ImplicitValue.push outer) = Some false
         /\ ImplicitValue.get_value (ImplicitValue.push outer) = None)
  /\ (forall (t : T) (outer : list (option T)),
         ImplicitValue.has_value (ImplicitValue.push_value t outer) = Some true
         /\ ImplicitValue.get_value (ImplicitValue.push_value t outer) = Some t)
  /\ (forall (t : T) (outer : list (option T)),
         ImplicitValue.has_value
           (ImplicitValue.push (ImplicitValue.push_value t outer)) = Some false
         /\ ImplicitValue.has_value
              (ImplicitValue.push (ImplicitValue.push_value t outer))
            <> ImplicitValue.has_value (ImplicitValue.push_value t outer)).
Proof.
  repeat split; simpl; discriminate.
Qed.

(** C10: the constructor leaves exactly one frame, and it holds no
    value: [has_value] is defined on the fresh stack and answers false. *)
Theorem fresh_implicit_stack_has_one_empty_frame :
  @ImplicitValue.implicit_value_t T = [None]
  /\ length (@ImplicitValue.implicit_value_t T) = 1
  /\ ImplicitValue.has_value (@ImplicitValue.implicit_value_t T) = Some false
  /\ ImplicitValue.get_value (@ImplicitValue.implicit_value_t T) = None.
Proof. repeat split. Qed.

End SentinelFacts.

(** * Properties of streams *)

Section MachineFacts.
Context {doc St : Type}.
Implicit Types (nx : St -> option doc * St) (s : St).

Lemma skip_succ nx k s : skip nx (S k) s = skip nx k (snd (nx s)).
Proof. unfold skip. by rewrite Nat.iter_succ_r. Qed.

Lemma skip_add nx j k s : skip nx (j + k) s = skip nx k (skip nx j s).
Proof.
  revert s. induction j as [|j IH]; intros s; [done|].
  change (S j + k) with (S (j + k)). by rewrite !skip_succ, IH.
Qed.

Lemma result_at_succ nx k s :
  result_at nx s (S k) = result_at nx (snd (nx s)) k.
Proof. unfold result_at. by rewrite skip_succ. Qed.

Lemma run_length nx k s : length (fst (run nx k s)) = k.
Proof.
  revert s. induction k as [|k IH]; intros s; simpl; [done|].
  destruct (nx s) as [res s']. specialize (IH s').
  destruct (run nx k s') as [rest s'']. simpl in *. by rewrite IH.
Qed.

Lemma run_skip nx k s : snd (run nx k s) = skip nx k s.
Proof.
  revert s. induction k as [|k IH]; intros s; [done|].
  rewrite skip_succ. simpl. destruct (nx s) as [res s'].
  specialize (IH s'). by destruct (run nx k s').
Qed.

Lemma run_lookup nx k s j :
  j < k -> fst (run nx k s) !! j = Some (result_at nx s j).
Proof.
  revert s j. induction k as [|k IH]; intros s j Hj; [lia|].
  simpl. destruct (nx s) as [res s'] eqn:Hnx.
  specialize (IH s'). destruct (run nx k s') as [rest s''].
  destruct j as [|j]; simpl.
  - unfold result_at, skip. simpl. by rewrite Hnx.
  - rewrite result_at_succ, Hnx. simpl in IH. apply IH. lia.
Qed.

Lemma run_succ_r nx k s :
  run nx (S k) s =
  (fst (run nx k s) ++ [result_at nx s k], skip nx (S k) s).
Proof.
  revert s. induction k as [|k IH]; intros s.
  - simpl. unfold result_at, skip. simpl. by destruct (nx s).
  - change (run nx (S (S k)) s)
      with (let '(res, s') := nx s in
            let '(rest, s'') := run nx (S k) s' in (res :: rest, s'')).
    rewrite (skip_succ nx (S k)), result_at_succ.
    destruct (nx s) as [res s'] eqn:Hnx. rewrite IH.
    simpl. rewrite Hnx. by destruct (run nx k s').
Qed.

Lemma skip_succ_r nx k s :
  skip nx (S k) s = snd (nx (skip nx k s)).
Proof. reflexivity. Qed.

Lemma result_at_skip nx j k s :
  result_at nx (skip nx j s) k = result_at nx s (j + k).
Proof. unfold result_at. by rewrite skip_add. Qed.

Lemma run_add nx j k s :
  fst (run nx (j + k) s) = fst (run nx j s) ++ fst (run nx k (skip nx j s)).
Proof.
  revert s. induction j as [|j IH]; intros s; [done|].
  rewrite skip_succ. change (S j + k) with (S (j + k)). simpl.
  destruct (nx s) as [res s']. specialize (IH s').
  destruct (run nx (j + k) s'), (run nx j s'). simpl in *. by rewrite IH.
Qed.

Lemma documents_cons_length (res : option doc) rest :
  length (documents (res :: rest)) <= S (length (documents rest)).
Proof. unfold documents. destruct res; cbn; lia. Qed.

Lemma documents_app (l1 l2 : list (option doc)) :
  documents (l1 ++ l2) = documents l1 ++ documents l2.
Proof. unfold documents. apply omap_app. Qed.

Lemma documents_length (l : list (option doc)) :
  length (documents l) <= length l.
Proof.
  unfold documents. induction l as [|[d|] l IH]; cbn; [lia | | ]; cbn in IH; lia.
Qed.

Lemma drain_succ (nx : St -> option (option doc * St)) fuel s :
  drain nx (S fuel) s =
  match nx s with
  | None => None
  | Some (None, s') => Some ([], s')
  | Some (Some json, s') =>
      match drain nx fuel s' with
      | Some (data, s'') => Some (json :: data, s'')
      | None => None
      end
  end.
Proof. reflexivity. Qed.

End MachineFacts.

Section ContractFacts.
Context {doc St : Type} (call : St -> option doc -> St -> Prop).

Lemma reaches_trans s1 s2 s3 :
  reaches call s1 s2 -> reaches call s2 s3 -> reaches call s1 s3.
Proof.
  induction 1 as [|s res s' s'' Hcall _ IH]; [done|].
  intros H3. eapply reaches_call; [exact Hcall | by apply IH].
Qed.

Lemma exhausted_call s res s' :
  exhausted call s -> call s res s' -> res = None /\ exhausted call s'.
Proof.
  intros Hex Hcall. split.
  - destruct (Hex s (reaches_here _ _)) as [_ Hnone]. by eapply Hnone.
  - intros s'' Hreach. apply Hex.
    eapply reaches_call; [exact Hcall | exact Hreach].
Qed.

Lemma exhausted_returns s : exhausted call s -> exists s', call s None s'.
Proof. intros Hex. by destruct (Hex s (reaches_here _ _)). Qed.

Lemma obeys_contract_call s res s' :
  obeys_contract call s -> call s res s' -> obeys_contract call s'.
Proof.
  intros Hs Hcall s1 s2 Hreach. apply Hs.
  eapply reaches_call; [exact Hcall | exact Hreach].
Qed.

Lemma obeys_contract_sentinel s s' :
  obeys_contract call s -> call s None s' -> exhausted call s'.
Proof. intros Hs. apply Hs. constructor. Qed.

Lemma exhausted_obeys_contract s : exhausted call s -> obeys_contract call s.
Proof.
  intros Hex s1 s2 Hreach Hcall s3 Hreach3. apply Hex.
  eapply reaches_trans; [exact Hreach|].
  eapply reaches_call; [exact Hcall | exact Hreach3].
Qed.

(** The proof scheme for every stream kind: an invariant [Inv] kept by
    all calls, and a set [Dead] of states entered with the first sentinel
    and never left, in which calls return, and return the sentinel. *)
Lemma contract_by_invariant (Inv Dead : St -> Prop) :
  (forall s res s', Inv s -> call s res s' -> Inv s') ->
  (forall s s', Inv s -> call s None s' -> Dead s') ->
  (forall s res s', Dead s -> call s res s' -> res = None /\ Dead s') ->
  (forall s, Dead s -> exists s', call s None s') ->
  forall s, Inv s -> obeys_contract call s.
Proof.
  intros Hinv Henter Hstay Hreturns s Hs s1 s2 Hreach Hcall.
  assert (Inv s1) as Hs1.
  { clear Hcall. induction Hreach as [|a res b c Hab _ IH]; [done|].
    apply IH. by eapply Hinv. }
  assert (Dead s2) as Hdead by (by eapply Henter).
  clear -Hdead Hstay Hreturns.
  intros s3 Hreach.
  assert (Dead s3) as Hs3.
  { induction Hreach as [|a res b c Hab _ IH]; [done|].
    apply IH. by eapply Hstay. }
  split; [by apply Hreturns|].
  intros res s4 Hcall. by eapply Hstay.
Qed.

End ContractFacts.

Section ContractOfTotalNext.
Context {doc St : Type}.

Lemma reaches_skip (nx : St -> option doc * St) k s :
  reaches (call_of nx) s (skip nx k s).
Proof.
  induction k as [|k IH]; [constructor|].
  eapply reaches_trans; [exact IH|]. rewrite skip_succ_r.
  eapply reaches_call; [|constructor]. unfold call_of. apply surjective_pairing.
Qed.

Lemma reaches_is_skip (nx : St -> option doc * St) s s' :
  reaches (call_of nx) s s' -> exists k, s' = skip nx k s.
Proof.
  induction 1 as [s|s res s1 s2 Hcall _ [k ->]]; [by exists 0|].
  exists (S k). rewrite skip_succ. unfold call_of in Hcall. by rewrite Hcall.
Qed.

(** For a [next] that always returns, the contract says of the results of
    successive calls that after a sentinel there are only sentinels. *)
Lemma contract_iff_results (nx : St -> option doc * St) s :
  obeys_contract (call_of nx) s <->
  (forall i j, i <= j -> result_at nx s i = None -> result_at nx s j = None).
Proof.
  split.
  - intros Hs i j Hij Hi.
    destruct (decide (i = j)) as [->|Hne]; [done|].
    assert (exhausted (call_of nx) (skip nx (S i) s)) as Hex.
    { apply (Hs (skip nx i s)); [apply reaches_skip|].
      unfold call_of. rewrite skip_succ_r. unfold result_at in Hi.
      destruct (nx (skip nx i s)). simpl in *. by subst. }
    replace j with (S i + (j - S i)) by lia. rewrite <- result_at_skip.
    destruct (Hex _ (reaches_skip nx (j - S i) _)) as [_ Hnone].
    eapply Hnone. unfold call_of, result_at. apply surjective_pairing.
  - intros Hresults s1 s2 Hreach Hcall s3 Hreach3.
    apply reaches_is_skip in Hreach as [i ->].
    apply reaches_is_skip in Hreach3 as [k ->].
    unfold call_of in Hcall.
    assert (result_at nx s i = None) as Hi
      by (unfold result_at; by rewrite Hcall).
    assert (s2 = skip nx (S i) s) as ->
      by (rewrite skip_succ_r; by rewrite Hcall).
    assert (fst (nx (skip nx k (skip nx (S i) s))) = None) as Hk.
    { change (result_at nx (skip nx (S i) s) k = None).
      rewrite result_at_skip. apply (Hresults i); [lia | done]. }
    unfold call_of. split.
    + exists (snd (nx (skip nx k (skip nx (S i) s)))).
      rewrite <- Hk. apply surjective_pairing.
    + intros res s'' Hnx. by rewrite Hnx in Hk.
Qed.

End ContractOfTotalNext.

Section UpstreamFacts.
Context {doc : Type}.
Implicit Types (up : json_stream_t doc).

Lemma next_calls up : calls (snd (JsonStream.next up)) = S (calls up).
Proof. unfold JsonStream.next. by destruct (step up (cur up)). Qed.

Lemma skip_calls up k : calls (skip JsonStream.next k up) = calls up + k.
Proof.
  revert up. induction k as [|k IH]; intros up.
  - unfold skip. simpl. lia.
  - rewrite skip_succ, IH, next_calls. lia.
Qed.

Lemma upstream_exhausted_next up res up' :
  exhausted (call_of JsonStream.next) up ->
  JsonStream.next up = (res, up') ->
  res = None /\ exhausted (call_of JsonStream.next) up'.
Proof. intros Hex Hnext. by eapply exhausted_call. Qed.

Lemma upstream_obeys_next up res up' :
  obeys_contract (call_of JsonStream.next) up ->
  JsonStream.next up = (res, up') ->
  obeys_contract (call_of JsonStream.next) up'.
Proof. intros Hup Hnext. by eapply obeys_contract_call. Qed.

End UpstreamFacts.

(** ** [limit_stream_t] *)

Section LimitFacts.
Context {doc : Type}.
Implicit Types (up : json_stream_t doc) (w : Limit.limit_stream_t doc).

(** [limit] only moves down towards zero, so [limit--] stays in the
    range of [int] that the constructor's argument came from. *)
Lemma limit_run k w :
  (0 <= Limit.limit w)%Z ->
  let results := fst (run Limit.next k w) in
  let w' := snd (run Limit.next k w) in
  Limit.limit w' = (Limit.limit w - Z.of_nat (min k (Z.to_nat (Limit.limit w))))%Z
  /\ calls (Limit.stream w')
     = calls (Limit.stream w) + min k (Z.to_nat (Limit.limit w))
  /\ length (documents results) <= min k (Z.to_nat (Limit.limit w)).
Proof.
  revert w. induction k as [|k IH]; intros w Hpos; simpl.
  - repeat split; lia.
  - unfold Limit.next at 1 3 5. destruct (Z.eqb_spec (Limit.limit w) 0) as [H0|Hne].
    + specialize (IH w Hpos). simpl in IH.
      destruct (run Limit.next k w) as [rest w'']. simpl in *.
      rewrite H0 in *. simpl in *.
      rewrite Nat.min_0_r in IH. destruct IH as (IH1 & IH2 & IH3).
      repeat split; lia.
    + pose proof (next_calls (Limit.stream w)) as Hcalls.
      destruct (JsonStream.next (Limit.stream w)) as [res up'].
      simpl in Hcalls.
      specialize (IH {| Limit.stream := up'; Limit.limit := Limit.limit w - 1 |}).
      simpl in IH.
      destruct (run Limit.next k _) as [rest w'']. simpl in *.
      destruct IH as (IH1 & IH2 & IH3); [lia|].
      assert (Z.to_nat (Limit.limit w) = S (Z.to_nat (Limit.limit w - 1)))
        as -> by lia.
      destruct res; simpl; repeat split; lia.
Qed.

Lemma limit_spent j w :
  Limit.limit w = 0%Z -> run Limit.next j w = (replicate j None, w).
Proof.
  intros H0. induction j as [|j IH]; simpl; [done|].
  unfold Limit.next at 1. rewrite H0. simpl. by rewrite IH.
Qed.

(** C3: for [n >= 0] the constructor accepts [n], and after any number
    [k] of [next()] calls the stream has emitted at most [n] documents
    and has called its upstream [min k n] times, so at most [n] times.
    Once [n] documents are out, every further call returns the sentinel
    and leaves the stream, its upstream included, as it was. *)
Theorem limit_emits_and_pulls_at_most_n up (n : Z) :
  (0 <= n)%Z ->
  exists w,
    Limit.limit_stream up n = Some w
    /\ forall k,
        let results := fst (run Limit.next k w) in
        let w' := snd (run Limit.next k w) in
        (Z.of_nat (length (documents results)) <= n)%Z
        /\ calls (Limit.stream w') = calls up + min k (Z.to_nat n)
        /\ (Z.of_nat (calls (Limit.stream w') - calls up) <= n)%Z
        /\ (Z.of_nat (length (documents results)) = n ->
            forall j, run Limit.next j w' = (replicate j None, w')).
Proof.
  intros Hn. unfold Limit.limit_stream.
  destruct (Z.leb_spec 0 n) as [_|]; [|lia].
  eexists. split; [reflexivity|]. intros k.
  pose proof (limit_run k {| Limit.stream := up; Limit.limit := n |} Hn)
    as (Hlimit & Hcalls & Hdocs).
  simpl in *. repeat split; [lia | lia | lia |].
  intros Hall j. apply limit_spent. lia.
Qed.

End LimitFacts.

(** ** [filter_stream_t] *)

Section FilterFacts.
Context {doc : Type}.
Implicit Types (up : json_stream_t doc) (w : Filter.filter_stream_t doc).

Lemma filter_next_succ fuel w :
  Filter.next (S fuel) w =
  match JsonStream.next (Filter.stream w) with
  | (Some json, up') =>
      if Filter.p w json
      then Some (Some json, {| Filter.stream := up'; Filter.p := Filter.p w |})
      else Filter.next fuel {| Filter.stream := up'; Filter.p := Filter.p w |}
  | (None, up') => Some (None, {| Filter.stream := up'; Filter.p := Filter.p w |})
  end.
Proof. reflexivity. Qed.

Lemma filter_next_mono fuel w r :
  Filter.next fuel w = Some r -> Filter.next (S fuel) w = Some r.
Proof.
  revert w. induction fuel as [|fuel IH]; intros w; [discriminate|].
  intros Hnext. simpl in Hnext |- *.
  destruct (JsonStream.next (Filter.stream w)) as [[json|] up']; [|done].
  destruct (Filter.p w json); [done|]. exact (IH _ Hnext).
Qed.

Lemma filter_next_enough fuel fuel' w r :
  fuel <= fuel' -> Filter.next fuel w = Some r -> Filter.next fuel' w = Some r.
Proof. induction 1 as [|fuel' _ IH]; [done|]. intros. by apply filter_next_mono, IH. Qed.

(** What one call does: it passes over [k] upstream documents that fail
    [p] and stops at the next upstream result. *)
Lemma filter_next_pulls fuel w res w' :
  Filter.next fuel w = Some (res, w') ->
  exists k,
    k < fuel
    /\ Filter.stream w' = skip JsonStream.next (S k) (Filter.stream w)
    /\ Filter.p w' = Filter.p w
    /\ (forall j, j < k ->
        exists json, result_at JsonStream.next (Filter.stream w) j = Some json
                     /\ Filter.p w json = false)
    /\ result_at JsonStream.next (Filter.stream w) k = res
    /\ (forall json, res = Some json -> Filter.p w json = true).
Proof.
  revert w. induction fuel as [|fuel IH]; intros w; [discriminate|].
  simpl. destruct (JsonStream.next (Filter.stream w)) as [[json|] up'] eqn:Hnext.
  - destruct (Filter.p w json) eqn:Hp.
    + intros [= <- <-]. exists 0. unfold result_at, skip. simpl. rewrite Hnext.
      repeat split; [lia | intros; lia | congruence].
    + intros Hrec. destruct (IH _ Hrec) as (k & Hk & Hup & Hp' & Hskip & Hres & Hok).
      cbn [Filter.stream Filter.p] in *.
      exists (S k). rewrite (skip_succ _ (S k)), Hnext.
      repeat split; [lia | done | done | | | done].
      * intros [|j] Hj.
        -- exists json. unfold result_at, skip. simpl. by rewrite Hnext.
        -- rewrite result_at_succ, Hnext. apply Hskip. lia.
      * by rewrite result_at_succ, Hnext.
  - intros [= <- <-]. exists 0. unfold result_at, skip. simpl. rewrite Hnext.
    repeat split; [lia | intros; lia | congruence].
Qed.

(** A call returns as soon as the upstream has a result to stop at. *)
Lemma filter_next_returns k w :
  (forall j, j < k ->
     exists json, result_at JsonStream.next (Filter.stream w) j = Some json
                  /\ Filter.p w json = false) ->
  forall fuel, k < fuel -> is_Some (Filter.next fuel w)
  \/ exists json, result_at JsonStream.next (Filter.stream w) k = Some json
                  /\ Filter.p w json = false.
Proof.
  revert w. induction k as [|k IH]; intros w Hskip fuel Hfuel.
  - destruct fuel as [|fuel]; [lia|]. simpl. unfold result_at, skip. simpl.
    destruct (JsonStream.next (Filter.stream w)) as [[json|] up']; simpl; [|eauto].
    destruct (Filter.p w json) eqn:Hp; eauto.
  - destruct fuel as [|fuel]; [lia|]. simpl.
    destruct (Hskip 0) as (json & H0 & Hp); [lia|].
    unfold result_at, skip in H0. simpl in H0.
    destruct (JsonStream.next (Filter.stream w)) as [res up'] eqn:Hnext.
    simpl in H0. subst res. rewrite Hp.
    rewrite result_at_succ, Hnext. simpl.
    apply (IH {| Filter.stream := up'; Filter.p := Filter.p w |}); [|lia].
    intros j Hj. simpl. destruct (Hskip (S j)) as (json' & Hj' & Hp'); [lia|].
    rewrite result_at_succ, Hnext in Hj'. eauto.
Qed.

Lemma filter_drain n up (p : doc -> bool) data up' :
  drain (total JsonStream.next) n up = Some (data, up') ->
  forall fi fo, n <= fi -> n <= fo ->
    drain (Filter.next fi) fo (Filter.filter_stream up p)
    = Some (List.filter p data, Filter.filter_stream up' p).
Proof.
  unfold Filter.filter_stream.
  revert up data up'. induction n as [|n IH]; intros up data up'; [discriminate|].
  rewrite drain_succ. unfold total at 1.
  destruct (JsonStream.next up) as [[json|] up1] eqn:Hnext.
  - destruct (drain (total JsonStream.next) n up1) as [[data1 up2]|] eqn:Hrest;
      [|discriminate].
    intros [= <- <-] fi fo Hfi Hfo.
    destruct fi as [|fi]; [lia|]. destruct fo as [|fo]; [lia|].
    specialize (IH _ _ _ Hrest). rewrite drain_succ, filter_next_succ.
    cbn [Filter.stream Filter.p]. rewrite Hnext.
    destruct (p json) eqn:Hp; cbn [List.filter]; rewrite Hp.
    + rewrite (IH (S fi) fo) by lia. done.
    + (* the call goes on with the rest of the upstream *)
      assert (n <> 0) as Hn by (intros ->; discriminate).
      pose proof (IH fi (S fo) ltac:(lia) ltac:(lia)) as Hfi'.
      pose proof (IH (S fi) (S fo) ltac:(lia) ltac:(lia)) as HSfi.
      rewrite drain_succ in Hfi', HSfi.
      destruct (Filter.next fi {| Filter.stream := up1; Filter.p := p |})
        as [r|] eqn:Hcall; [|discriminate].
      apply filter_next_mono in Hcall.
      rewrite Hcall in HSfi. exact HSfi.
  - intros [= <- <-] fi fo Hfi Hfo.
    destruct fi as [|fi]; [lia|]. destruct fo as [|fo]; [lia|].
    rewrite drain_succ, filter_next_succ. cbn [Filter.stream Filter.p].
    by rewrite Hnext.
Qed.

(** C8: one call of a filter stream passes over the upstream documents
    that fail [p] and returns the first upstream result that is a
    document satisfying [p], as it is, or the sentinel; it returns as soon
    as the upstream has such a result.  Draining the filter stream
    therefore yields, of the documents the upstream yields when drained,
    those that satisfy [p], in the same order. *)
Theorem filter_yields_matching_subsequence :
  (forall fuel w res w',
      Filter.next fuel w = Some (res, w') ->
      exists k,
        Filter.stream w' = skip JsonStream.next (S k) (Filter.stream w)
        /\ (forall j, j < k ->
            exists json,
              result_at JsonStream.next (Filter.stream w) j = Some json
              /\ Filter.p w json = false)
        /\ result_at JsonStream.next (Filter.stream w) k = res
        /\ (forall json, res = Some json -> Filter.p w json = true))
  /\ (forall k w,
         (forall j, j < k ->
            exists json,
              result_at JsonStream.next (Filter.stream w) j = Some json
              /\ Filter.p w json = false) ->
         (forall json, result_at JsonStream.next (Filter.stream w) k = Some json ->
                       Filter.p w json = true) ->
         forall fuel, k < fuel -> is_Some (Filter.next fuel w))
  /\ (forall n up (p : doc -> bool) data up',
         drain (total JsonStream.next) n up = Some (data, up') ->
         forall fuel, n <= fuel ->
           drain (Filter.next fuel) fuel (Filter.filter_stream up p)
           = Some (List.filter p data, Filter.filter_stream up' p)).
Proof.
  split; [|split].
  - intros fuel w res w' Hnext.
    destruct (filter_next_pulls _ _ _ _ Hnext) as (k & _ & ? & _ & ? & ? & ?).
    by exists k.
  - intros k w Hskip Hstop fuel Hfuel.
    destruct (filter_next_returns k w Hskip fuel Hfuel)
      as [?|(json & Hres & Hp)]; [done|].
    rewrite (Hstop _ Hres) in Hp. discriminate.
  - intros n up p data up' Hdrain fuel Hfuel. by eapply filter_drain.
Qed.

End FilterFacts.

(** ** [concat_mapping_stream_t] *)

Section ConcatMappingFacts.
Context {doc : Type}.
Implicit Types (up sub : json_stream_t doc)
  (w : ConcatMapping.concat_mapping_stream_t doc)
  (f : doc -> json_stream_t doc).

Lemma concat_mapping_next_succ fuel w :
  ConcatMapping.next (S fuel) w =
  match ConcatMapping.substream w with
  | None => Some (None, w)
  | Some sub =>
      match JsonStream.next sub with
      | (Some res, sub') =>
          Some (Some res,
                {| ConcatMapping.stream := ConcatMapping.stream w;
                   ConcatMapping.substream := Some sub';
                   ConcatMapping.f := ConcatMapping.f w |})
      | (None, _) =>
          match JsonStream.next (ConcatMapping.stream w) with
          | (Some json, up') =>
              ConcatMapping.next fuel
                {| ConcatMapping.stream := up';
                   ConcatMapping.substream := Some (ConcatMapping.f w json);
                   ConcatMapping.f := ConcatMapping.f w |}
          | (None, up') =>
              ConcatMapping.next fuel
                {| ConcatMapping.stream := up';
                   ConcatMapping.substream := None;
                   ConcatMapping.f := ConcatMapping.f w |}
          end
      end
  end.
Proof. reflexivity. Qed.

Lemma concat_mapping_next_mono fuel w r :
  ConcatMapping.next fuel w = Some r -> ConcatMapping.next (S fuel) w = Some r.
Proof.
  revert w. induction fuel as [|fuel IH]; intros w; [discriminate|].
  rewrite (concat_mapping_next_succ (S fuel)), (concat_mapping_next_succ fuel).
  destruct (ConcatMapping.substream w) as [sub|]; [|done].
  destruct (JsonStream.next sub) as [[res|] sub']; [done|].
  destruct (JsonStream.next (ConcatMapping.stream w)) as [[json|] up'];
    apply IH.
Qed.

(** Draining from the middle of a substream: what is left of it, then
    the substreams of the documents the upstream still has. *)
Lemma concat_mapping_drain_from f (g : doc -> list doc) n :
  forall up data up',
    drain (total JsonStream.next) n up = Some (data, up') ->
    Forall (fun d => exists m sub',
                drain (total JsonStream.next) m (f d) = Some (g d, sub')) data ->
    forall m sub ls sub',
      drain (total JsonStream.next) m sub = Some (ls, sub') ->
      exists N, forall fi fo, N <= fi -> N <= fo ->
        drain (ConcatMapping.next fi) fo
          {| ConcatMapping.stream := up;
             ConcatMapping.substream := Some sub;
             ConcatMapping.f := f |}
        = Some (ls ++ concat (map g data),
                {| ConcatMapping.stream := up';
                   ConcatMapping.substream := None;
                   ConcatMapping.f := f |}).
Proof.
  induction n as [|n IHn]; intros up data up'; [discriminate|].
  intros Hup Hsubs m. induction m as [|m IHm]; intros sub ls sub'; [discriminate|].
  rewrite drain_succ. unfold total at 1.
  destruct (JsonStream.next sub) as [[res|] sub1] eqn:Hsub.
  - (* the substream has a document *)
    destruct (drain (total JsonStream.next) m sub1) as [[ls1 sub2]|] eqn:Hrest;
      [|discriminate].
    intros [= <- <-]. destruct (IHm _ _ _ Hrest) as [N HN].
    exists (S N). intros [|fi] [|fo] Hfi Hfo; try lia.
    rewrite drain_succ, concat_mapping_next_succ.
    cbn [ConcatMapping.stream ConcatMapping.substream ConcatMapping.f].
    rewrite Hsub. rewrite (HN (S fi) fo) by lia. done.
  - (* the substream is exhausted: on to the upstream *)
    intros [= <- <-]. clear IHm.
    rewrite drain_succ in Hup. unfold total at 1 in Hup.
    destruct (JsonStream.next up) as [[json|] up1] eqn:Hnext.
    + destruct (drain (total JsonStream.next) n up1) as [[data1 up2]|] eqn:Hrest;
        [|discriminate].
      injection Hup as <- <-.
      apply Forall_cons in Hsubs as [(m' & subf & Hf) Hsubs].
      destruct (IHn _ _ _ Hrest Hsubs _ _ _ _ Hf) as [N HN].
      exists (S (S N)). intros [|fi] [|fo] Hfi Hfo; try lia.
      rewrite drain_succ, concat_mapping_next_succ.
      cbn [ConcatMapping.stream ConcatMapping.substream ConcatMapping.f].
      rewrite Hsub, Hnext.
      pose proof (HN fi (S fo) ltac:(lia) ltac:(lia)) as Hfi'.
      pose proof (HN (S fi) (S fo) ltac:(lia) ltac:(lia)) as HSfi.
      rewrite drain_succ in Hfi', HSfi.
      destruct (ConcatMapping.next fi _) as [r|] eqn:Hcall; [|discriminate].
      apply concat_mapping_next_mono in Hcall.
      rewrite Hcall in HSfi. exact HSfi.
    + injection Hup as <- <-.
      exists 2. intros [|[|fi]] [|fo] Hfi Hfo; try lia.
      rewrite drain_succ, !concat_mapping_next_succ.
      cbn [ConcatMapping.stream ConcatMapping.substream ConcatMapping.f].
      by rewrite Hsub, Hnext.
Qed.

Lemma concat_mapping_drain f (g : doc -> list doc) n up data up' :
  drain (total JsonStream.next) n up = Some (data, up') ->
  Forall (fun d => exists m sub',
              drain (total JsonStream.next) m (f d) = Some (g d, sub')) data ->
  exists N, forall fuel, N <= fuel ->
    drain (ConcatMapping.next fuel) fuel (ConcatMapping.concat_mapping_stream up f)
    = Some (concat (map g data),
            {| ConcatMapping.stream := up';
               ConcatMapping.substream := None;
               ConcatMapping.f := f |}).
Proof.
  destruct n as [|n]; [discriminate|].
  rewrite drain_succ. unfold total at 1, ConcatMapping.concat_mapping_stream.
  destruct (JsonStream.next up) as [[json|] up1] eqn:Hnext.
  - destruct (drain (total JsonStream.next) n up1) as [[data1 up2]|] eqn:Hrest;
      [|discriminate].
    intros [= <- <-] Hsubs.
    apply Forall_cons in Hsubs as [(m & subf & Hf) Hsubs].
    destruct (concat_mapping_drain_from f g n _ _ _ Hrest Hsubs _ _ _ _ Hf)
      as [N HN].
    exists N. intros fuel Hfuel. by apply HN.
  - intros [= <- <-] _. exists 1. intros [|fuel] Hfuel; [lia|].
    by rewrite drain_succ, concat_mapping_next_succ.
Qed.

(** C2: the constructor calls the upstream once and, when that gives a
    document [a], starts with the substream [f a].  A call hands on what
    the current substream returns without touching the upstream, and only
    a substream that has returned the sentinel makes the stream ask the
    upstream for another document.  So when the upstream drains to
    [data] and every [f d] drains to [g d], the stream drains to the
    concatenation of the [g d] in the order of [data]. *)
Theorem concat_mapping_yields_substreams_in_order :
  (forall up f,
      calls (ConcatMapping.stream (ConcatMapping.concat_mapping_stream up f))
      = S (calls up)
      /\ ConcatMapping.stream (ConcatMapping.concat_mapping_stream up f)
         = snd (JsonStream.next up)
      /\ ConcatMapping.substream (ConcatMapping.concat_mapping_stream up f)
         = f <$> fst (JsonStream.next up))
  /\ (forall fuel w sub res sub',
         ConcatMapping.substream w = Some sub ->
         JsonStream.next sub = (Some res, sub') ->
         ConcatMapping.next (S fuel) w
         = Some (Some res,
                 {| ConcatMapping.stream := ConcatMapping.stream w;
                    ConcatMapping.substream := Some sub';
                    ConcatMapping.f := ConcatMapping.f w |}))
  /\ (forall fuel w res w',
         ConcatMapping.next fuel w = Some (res, w') ->
         ConcatMapping.stream w' <> ConcatMapping.stream w ->
         exists sub, ConcatMapping.substream w = Some sub
                     /\ fst (JsonStream.next sub) = None)
  /\ (forall f (g : doc -> list doc) n up data up',
         drain (total JsonStream.next) n up = Some (data, up') ->
         Forall (fun d => exists m sub',
                     drain (total JsonStream.next) m (f d) = Some (g d, sub'))
                data ->
         exists N, forall fuel, N <= fuel ->
           drain (ConcatMapping.next fuel) fuel
                 (ConcatMapping.concat_mapping_stream up f)
           = Some (concat (map g data),
                   {| ConcatMapping.stream := up';
                      ConcatMapping.substream := None;
                      ConcatMapping.f := f |})).
Proof.
  split; [|split; [|split]].
  - intros up f. unfold ConcatMapping.concat_mapping_stream.
    pose proof (next_calls up) as Hcalls.
    by destruct (JsonStream.next up) as [[json|] up1].
  - intros fuel w sub res sub' Hw Hsub.
    by rewrite concat_mapping_next_succ, Hw, Hsub.
  - intros [|fuel] w res w'; [discriminate|].
    rewrite concat_mapping_next_succ.
    destruct (ConcatMapping.substream w) as [sub|]; [|by intros [= <- <-]].
    destruct (JsonStream.next sub) as [[r|] sub1] eqn:Hsub.
    + by intros [= <- <-].
    + intros _ _. exists sub. by rewrite Hsub.
  - intros f g n up data up'. apply concat_mapping_drain.
Qed.

End ConcatMappingFacts.

(** ** [stream_multiplexer_t] *)

Section MultiplexerFacts.
Context {doc : Type}.
Implicit Types (up : json_stream_t doc)
  (m : Multiplexer.stream_multiplexer_t doc) (σ : Multiplexer.shared_t doc).

(** The loop of [stream_t::next], as the source writes it. *)
Lemma stream_t_next_unfold m index :
  Multiplexer.next m index =
  if decide (length (Multiplexer.data m) <= index)
  then match Multiplexer.maybe_read_more m with
       | (true, m') => Multiplexer.next m' index
       | (false, m') => (None, m', index)
       end
  else (Multiplexer.data m !! index, m, S index).
Proof.
  unfold Multiplexer.next. case_decide as Hle.
  - replace (S index - length (Multiplexer.data m))
      with (S (index - length (Multiplexer.data m))) by lia.
    cbn [Multiplexer.read_until]. unfold Multiplexer.maybe_read_more.
    destruct (JsonStream.next (Multiplexer.stream m)) as [[json|] up']; [|done].
    cbn [Multiplexer.data]. rewrite length_app. simpl.
    replace (S index - (length (Multiplexer.data m) + 1))
      with (index - length (Multiplexer.data m)) by lia.
    done.
  - replace (S index - length (Multiplexer.data m)) with 0 by lia. done.
Qed.

(** [read_until] calls the upstream [j] times and appends the documents
    it is given; it fails on a sentinel, before the gap is closed. *)
Lemma read_until_calls gap m :
  exists j,
    Multiplexer.stream (snd (Multiplexer.read_until gap m))
    = skip JsonStream.next j (Multiplexer.stream m)
    /\ Multiplexer.data (snd (Multiplexer.read_until gap m))
       = Multiplexer.data m
         ++ documents (fst (run JsonStream.next j (Multiplexer.stream m)))
    /\ if fst (Multiplexer.read_until gap m)
       then j = gap
            /\ length (Multiplexer.data (snd (Multiplexer.read_until gap m)))
               = length (Multiplexer.data m) + gap
       else 0 < j
            /\ length (Multiplexer.data (snd (Multiplexer.read_until gap m)))
               < length (Multiplexer.data m) + gap
            /\ result_at JsonStream.next (Multiplexer.stream m) (j - 1) = None.
Proof.
  revert m. induction gap as [|gap IH]; intros m.
  - exists 0. simpl. unfold skip. simpl. rewrite app_nil_r. repeat split; lia.
  - cbn [Multiplexer.read_until]. unfold Multiplexer.maybe_read_more.
    destruct (JsonStream.next (Multiplexer.stream m)) as [[json|] up'] eqn:Hnext.
    + destruct (IH {| Multiplexer.stream := up';
                      Multiplexer.data := Multiplexer.data m ++ [json] |})
        as (j & Hstream & Hdata & Hb).
      cbn [Multiplexer.stream Multiplexer.data] in *.
      exists (S j). rewrite skip_succ, Hnext. split; [done|]. split.
      * rewrite Hdata. simpl. rewrite Hnext.
        destruct (run JsonStream.next j up'). simpl.
        by rewrite <- app_assoc.
      * destruct (fst (Multiplexer.read_until gap _)).
        -- rewrite length_app in Hb. simpl in Hb. lia.
        -- destruct Hb as (Hj & Hlen & Hres). rewrite length_app in Hlen.
           simpl in Hlen. repeat split; [lia | lia |].
           replace (S j - 1) with (S (j - 1)) by lia.
           by rewrite result_at_succ, Hnext.
    + exists 1. simpl. unfold result_at, skip. simpl. rewrite Hnext. simpl.
      rewrite app_nil_r. repeat split; lia.
Qed.

Lemma buffers_read_until up k gap m :
  Multiplexer.buffers up k m ->
  exists j extra,
    Multiplexer.buffers up (k + j) (snd (Multiplexer.read_until gap m))
    /\ Multiplexer.data (snd (Multiplexer.read_until gap m))
       = Multiplexer.data m ++ extra
    /\ if fst (Multiplexer.read_until gap m)
       then length (Multiplexer.data (snd (Multiplexer.read_until gap m)))
            = length (Multiplexer.data m) + gap
       else 0 < j
            /\ length (Multiplexer.data (snd (Multiplexer.read_until gap m)))
               < length (Multiplexer.data m) + gap
            /\ result_at JsonStream.next up (k + j - 1) = None.
Proof.
  intros [Hstream Hdata].
  destruct (read_until_calls gap m) as (j & Hs & Hd & Hb).
  exists j, (documents (fst (run JsonStream.next j (Multiplexer.stream m)))).
  split; [|split; [done|]].
  - split.
    + by rewrite Hs, Hstream, skip_add.
    + by rewrite Hd, Hdata, run_add, documents_app, Hstream.
  - destruct (fst (Multiplexer.read_until gap m)); [lia|].
    destruct Hb as (Hj & Hlen & Hres). repeat split; [done | done |].
    rewrite Hstream, result_at_skip in Hres.
    by replace (k + j - 1) with (k + (j - 1)) by lia.
Qed.

Lemma obeys_contract_sticky up :
  obeys_contract (call_of JsonStream.next) up -> Multiplexer.sticky up.
Proof. intros Hup. unfold Multiplexer.sticky. by apply contract_iff_results. Qed.

Lemma sticky_buffer up k :
  Multiplexer.sticky up ->
  (forall x d, documents (fst (run JsonStream.next k up)) !! x = Some d ->
               result_at JsonStream.next up x = Some d)
  /\ (length (documents (fst (run JsonStream.next k up))) < k ->
      result_at JsonStream.next up
        (length (documents (fst (run JsonStream.next k up)))) = None)
  /\ length (documents (fst (run JsonStream.next k up))) <= k.
Proof.
  intros Hsticky. induction k as [|k (Hdocs & Hgap & Hlen)].
  - simpl. repeat split; [intros x d; by rewrite lookup_nil | lia | lia].
  - rewrite run_succ_r. cbn [fst]. rewrite documents_app.
    set (buffer := documents (fst (run JsonStream.next k up))) in *.
    destruct (result_at JsonStream.next up k) as [d|] eqn:Hk;
      unfold documents; cbn; fold (documents (fst (run JsonStream.next k up)));
      fold buffer.
    + assert (length buffer = k) as Hfull.
      { destruct (decide (length buffer = k)) as [|Hne]; [done|].
        rewrite (Hsticky (length buffer) k) in Hk; [discriminate | lia |].
        apply Hgap. lia. }
      rewrite length_app. simpl. repeat split; [|lia|lia].
      intros x d' Hx. apply lookup_app_Some in Hx as [Hx|[Hge Hx]]; [by apply Hdocs|].
      rewrite Hfull in Hge, Hx.
      replace x with k in * by (apply lookup_lt_Some in Hx; simpl in Hx; lia).
      rewrite Nat.sub_diag in Hx. simpl in Hx. congruence.
    + rewrite app_nil_r. repeat split; [done | | lia].
      intros Hlt. destruct (decide (length buffer = k)) as [->|Hne]; [done|].
      apply Hgap. lia.
Qed.

Lemma consumer_inv_extend up buffer extra index received :
  Multiplexer.consumer_inv up buffer index received ->
  Multiplexer.consumer_inv up (buffer ++ extra) index received.
Proof.
  intros (Hle & Hdocs & Hst). split; [rewrite length_app; lia|].
  split; [|done]. by rewrite take_app_le.
Qed.

(** One call of one consumer. *)
Lemma consumer_step up k m index res m' index' :
  Multiplexer.buffers up k m ->
  Multiplexer.next m index = (res, m', index') ->
  exists k' extra,
    Multiplexer.buffers up k' m'
    /\ Multiplexer.data m' = Multiplexer.data m ++ extra
    /\ (res = None -> index' = index /\ length (Multiplexer.data m') <= index)
    /\ forall received,
        Multiplexer.consumer_inv up (Multiplexer.data m) index received ->
        Multiplexer.consumer_inv up (Multiplexer.data m') index' (received ++ [res]).
Proof.
  intros Hbuf. unfold Multiplexer.next.
  destruct (buffers_read_until up k (S index - length (Multiplexer.data m)) m Hbuf)
    as (j & extra & Hbuf' & Hdata & Hb).
  destruct (Multiplexer.read_until _ m) as [b m1]. cbn [fst snd] in *.
  pose proof (f_equal length Hdata) as Hlen. rewrite length_app in Hlen.
  destruct b; intros [= <- <- <-]; exists (k + j), extra;
    (split; [exact Hbuf'|]); (split; [exact Hdata|]).
  - (* the gap is closed: [data[index++]] *)
    destruct (lookup_lt_is_Some_2 (Multiplexer.data m1) index) as [d Hd]; [lia|].
    rewrite Hd. split; [done|].
    intros received (Hle & Hdocs & Hst). split; [lia|]. split.
    + rewrite documents_app, Hdocs, (take_S_r _ _ d), Hdata by done.
      by rewrite take_app_le.
    + intros Hsticky. destruct (Hst Hsticky) as (Hmap & Hpos).
      destruct Hbuf' as [_ Hbuffer].
      destruct (sticky_buffer up (k + j) Hsticky) as (Hresults & _ & _).
      rewrite <- Hbuffer in Hresults. specialize (Hresults _ _ Hd).
      destruct Hpos as [->|[_ Hnone]]; [|congruence].
      rewrite length_app, Nat.add_1_r, seq_S, map_app, <- Hmap. simpl.
      rewrite Hresults. split; [done | by left].
  - (* the upstream gave the sentinel *)
    destruct Hb as (Hj & Hshort & Hres). split; [lia|].
    intros received (Hle & Hdocs & Hst). split; [lia|]. split.
    + rewrite documents_app, Hdocs, Hdata, take_app_le by done.
      unfold documents. cbn. by rewrite app_nil_r.
    + intros Hsticky. destruct (Hst Hsticky) as (Hmap & Hpos).
      assert (result_at JsonStream.next up index = None) as Hindex.
      { destruct Hpos as [->|[_ Hnone]]; [|done].
        destruct Hbuf' as [_ Hbuffer].
        destruct (sticky_buffer up (k + j) Hsticky) as (Hresults & Hgap & Hmost).
        rewrite <- Hbuffer in Hresults, Hgap, Hmost.
        replace (length received) with (length (Multiplexer.data m1)) by lia.
        apply Hgap.
        destruct (decide (length (Multiplexer.data m1) = k + j)) as [Hfull|]; [|lia].
        destruct (lookup_lt_is_Some_2 (Multiplexer.data m1) (k + j - 1))
          as [d Hd]; [lia|].
        rewrite (Hresults _ _ Hd) in Hres. discriminate. }
      assert (index <= length received) as Hbehind
        by (destruct Hpos as [->|[? _]]; lia).
      rewrite length_app, Nat.add_1_r, seq_S, map_app, <- Hmap. simpl.
      rewrite (Hsticky index (length received) Hbehind Hindex).
      split; [done|]. right. split; [lia | done].
Qed.

Lemma results_of_cons c c' (res : option doc) log :
  Multiplexer.results_of c ((c', res) :: log) =
  if decide (c' = c) then res :: Multiplexer.results_of c log
  else Multiplexer.results_of c log.
Proof.
  unfold Multiplexer.results_of. simpl.
  destruct (Nat.eqb_spec c' c); by case_decide.
Qed.

(** Any schedule keeps the invariants; [prior c] is what consumer [c] had
    been handed before. *)
Lemma run_schedule_inv up schedule :
  forall σ k (prior : nat -> list (option doc)),
    Multiplexer.buffers up k (Multiplexer.parent σ) ->
    (forall c i, Multiplexer.indices σ !! c = Some i ->
       Multiplexer.consumer_inv up (Multiplexer.data (Multiplexer.parent σ)) i
         (prior c)) ->
    exists k',
      Multiplexer.buffers up k'
        (Multiplexer.parent (snd (Multiplexer.run_schedule schedule σ)))
      /\ length (Multiplexer.indices (snd (Multiplexer.run_schedule schedule σ)))
         = length (Multiplexer.indices σ)
      /\ forall c i,
          Multiplexer.indices (snd (Multiplexer.run_schedule schedule σ)) !! c
          = Some i ->
          Multiplexer.consumer_inv up
            (Multiplexer.data
               (Multiplexer.parent (snd (Multiplexer.run_schedule schedule σ))))
            i
            (prior c ++ Multiplexer.results_of c
                          (fst (Multiplexer.run_schedule schedule σ))).
Proof.
  induction schedule as [|c later IH]; intros σ k prior Hbuf Hall.
  - exists k. simpl. split; [done|]. split; [done|].
    intros c i Hc. rewrite app_nil_r. by apply Hall.
  - cbn [Multiplexer.run_schedule]. unfold Multiplexer.consumer_next.
    destruct (Multiplexer.indices σ !! c) as [index|] eqn:Hc; [|by eapply IH].
    destruct (Multiplexer.next (Multiplexer.parent σ) index)
      as [[res m'] index'] eqn:Hnext.
    destruct (consumer_step _ _ _ _ _ _ _ Hbuf Hnext)
      as (k' & extra & Hbuf' & Hdata & _ & Hstep).
    destruct (IH {| Multiplexer.parent := m';
                    Multiplexer.indices := <[c := index']> (Multiplexer.indices σ) |}
                 k'
                 (fun c' => if decide (c = c') then prior c' ++ [res] else prior c')
                 Hbuf')
      as (k'' & Hbuf'' & Hlen & Hall').
    { cbn [Multiplexer.parent Multiplexer.indices]. intros c' i Hc'.
      case_decide as Hcc; [subst c'|].
      - rewrite list_lookup_insert_eq in Hc' by (by eapply lookup_lt_Some).
        injection Hc' as <-. by apply Hstep, Hall.
      - rewrite list_lookup_insert_ne in Hc' by done.
        rewrite Hdata. by apply consumer_inv_extend, Hall. }
    destruct (Multiplexer.run_schedule later _) as [log σ']. cbn [fst snd] in *.
    exists k''. split; [done|].
    split; [rewrite Hlen; cbn [Multiplexer.indices]; by rewrite length_insert|].
    intros c' i Hc'. specialize (Hall' c' i Hc'). rewrite results_of_cons.
    case_decide; [|done]. by rewrite <- app_assoc in Hall'.
Qed.

Lemma run_schedule_log schedule σ :
  map fst (fst (Multiplexer.run_schedule schedule σ))
  = List.filter (fun c => c <? length (Multiplexer.indices σ)) schedule.
Proof.
  revert σ. induction schedule as [|c later IH]; intros σ; [done|].
  cbn [Multiplexer.run_schedule List.filter]. unfold Multiplexer.consumer_next.
  destruct (Multiplexer.indices σ !! c) as [index|] eqn:Hc.
  - apply lookup_lt_Some in Hc as Hlt.
    destruct (Nat.ltb_spec c (length (Multiplexer.indices σ))); [|lia].
    destruct (Multiplexer.next (Multiplexer.parent σ) index)
      as [[res m'] index'].
    specialize (IH {| Multiplexer.parent := m';
                      Multiplexer.indices := <[c := index']> (Multiplexer.indices σ) |}).
    cbn [Multiplexer.indices] in IH. rewrite length_insert in IH.
    destruct (Multiplexer.run_schedule later _) as [log σ']. simpl in *.
    by rewrite IH.
  - apply lookup_ge_None in Hc.
    destruct (Nat.ltb_spec c (length (Multiplexer.indices σ))); [lia|]. apply IH.
Qed.

Lemma run_schedule_count schedule σ c :
  c < length (Multiplexer.indices σ) ->
  length (Multiplexer.results_of c (fst (Multiplexer.run_schedule schedule σ)))
  = count_occ Nat.eq_dec schedule c.
Proof.
  revert σ. induction schedule as [|c' later IH]; intros σ Hc; [done|].
  cbn [Multiplexer.run_schedule count_occ]. unfold Multiplexer.consumer_next.
  destruct (Multiplexer.indices σ !! c') as [index|] eqn:Hc'.
  - destruct (Multiplexer.next (Multiplexer.parent σ) index)
      as [[res m'] index'].
    specialize (IH {| Multiplexer.parent := m';
                      Multiplexer.indices := <[c' := index']> (Multiplexer.indices σ) |}).
    cbn [Multiplexer.indices] in IH. rewrite length_insert in IH.
    specialize (IH Hc).
    destruct (Multiplexer.run_schedule later _) as [log σ']. cbn [fst] in *.
    rewrite results_of_cons. case_decide; destruct (Nat.eq_dec c' c); try done.
    simpl. by rewrite IH.
  - apply lookup_ge_None in Hc'. destruct (Nat.eq_dec c' c); [lia|]. by apply IH.
Qed.


End MultiplexerFacts.

(** ** The exhaustion contract, kind by kind *)

Section ExhaustionFacts.
Context {doc : Type}.
Implicit Types (up : json_stream_t doc).

Local Abbreviation up_call := (call_of (@JsonStream.next doc)).

Lemma obeys_contract_reaches {St} (call : St -> option doc -> St -> Prop) s s' :
  obeys_contract call s -> reaches call s s' -> obeys_contract call s'.
Proof.
  intros Hs Hreach s1 s2 Hreach1. apply Hs. by eapply reaches_trans.
Qed.

Lemma exhausted_reaches {St} (call : St -> option doc -> St -> Prop) s s' :
  exhausted call s -> reaches call s s' -> exhausted call s'.
Proof.
  intros Hs Hreach s1 Hreach1. apply Hs. by eapply reaches_trans.
Qed.

Lemma upstream_obeys_skip up k :
  obeys_contract up_call up -> obeys_contract up_call (skip JsonStream.next k up).
Proof. intros Hup. eapply obeys_contract_reaches; [done | apply reaches_skip]. Qed.

Lemma upstream_exhausted_skip up k :
  exhausted up_call up -> exhausted up_call (skip JsonStream.next k up).
Proof. intros Hup. eapply exhausted_reaches; [done | apply reaches_skip]. Qed.

Lemma upstream_exhausted_result_at up k :
  exhausted up_call up -> result_at JsonStream.next up k = None.
Proof.
  intros Hup. destruct (Hup _ (reaches_skip JsonStream.next k up)) as [_ Hnone].
  eapply Hnone. unfold call_of, result_at. apply surjective_pairing.
Qed.

(** The upstream is exhausted once one of its calls gave the sentinel. *)
Lemma upstream_exhausted_after up k :
  obeys_contract up_call up ->
  result_at JsonStream.next up k = None ->
  exhausted up_call (skip JsonStream.next (S k) up).
Proof.
  intros Hup Hk. apply (Hup (skip JsonStream.next k up)); [apply reaches_skip|].
  unfold call_of. rewrite skip_succ_r. unfold result_at in Hk.
  destruct (JsonStream.next (skip JsonStream.next k up)). simpl in *. by subst.
Qed.

Lemma in_memory_next_skip (data : list (option doc)) k :
  skip InMemory.next k data = drop k data.
Proof.
  revert data. induction k as [|k IH]; intros data; [done|].
  rewrite skip_succ, IH. destruct data; simpl; by rewrite ?drop_nil.
Qed.

Lemma in_memory_next_result_at (data : list (option doc)) j :
  result_at InMemory.next data j = default None (data !! j).
Proof.
  unfold result_at. rewrite in_memory_next_skip.
  rewrite <- (Nat.add_0_r j) at 2. rewrite <- lookup_drop.
  by destruct (drop j data).
Qed.

(** An in-memory stream keeps the contract exactly when no null entry of
    its buffer has a document behind it. *)
Lemma in_memory_obeys_iff (data : list (option doc)) :
  obeys_contract (call_of InMemory.next) data <->
  (forall i j d, i <= j -> data !! i = Some None -> data !! j <> Some (Some d)).
Proof.
  rewrite contract_iff_results. split.
  - intros Hsticky i j d Hij Hi Hj.
    specialize (Hsticky i j Hij). rewrite !in_memory_next_result_at in Hsticky.
    rewrite Hi, Hj in Hsticky. by specialize (Hsticky eq_refl).
  - intros Hdata i j Hij. rewrite !in_memory_next_result_at.
    destruct (data !! i) as [[di|]|] eqn:Hi; simpl; [done | |].
    + intros _. destruct (data !! j) as [[dj|]|] eqn:Hj; [|done|done].
      by destruct (Hdata i j dj Hij Hi).
    + intros _. apply lookup_ge_None in Hi.
      by rewrite (lookup_ge_None_2 data j) by lia.
Qed.

Lemma in_memory_obeys (data : list (option doc)) :
  Forall is_Some data -> obeys_contract (call_of InMemory.next) data.
Proof.
  intros Hdata. apply in_memory_obeys_iff. intros i j d _ Hi _.
  destruct (Forall_lookup_1 _ _ _ _ Hdata Hi) as [? ?]. done.
Qed.

Lemma union_scan_sentinel (rest : list nat) (objects : nat -> json_stream_t doc) :
  fst (fst (Union.scan rest objects)) = None ->
  snd (Union.scan rest objects) = length rest.
Proof.
  revert objects. induction rest as [|l later IH]; intros objects; simpl; [done|].
  destruct (JsonStream.next (objects l)) as [[json|] s']; simpl; [discriminate|].
  specialize (IH (Union.update l s' objects)).
  destruct (Union.scan later _) as [[res objects'] advanced]. simpl in *.
  intros Hres. by rewrite IH.
Qed.

Lemma union_obeys (σ : (nat -> json_stream_t doc) * Union.union_stream_t) :
  obeys_contract (call_of Union.next) σ.
Proof.
  apply (contract_by_invariant _ (fun _ => True)
           (fun σ => length (Union.streams (snd σ)) <= Union.hd (snd σ)));
    unfold call_of, Union.next; try done.
  - intros [objects u] s' _.
    pose proof (union_scan_sentinel (drop (Union.hd u) (Union.streams u)) objects)
      as Hend.
    destruct (Union.scan _ objects) as [[res objects'] advanced]. simpl in *.
    intros [= -> <-]. simpl. rewrite Hend by done. rewrite length_drop. lia.
  - intros [objects u] res s' Hdead. simpl in Hdead. rewrite drop_ge by done.
    simpl. intros [= <- <-]. simpl. split; [done | lia].
  - intros [objects u] Hdead. simpl in Hdead. rewrite drop_ge by done.
    simpl. eauto.
Qed.

Lemma filter_obeys (w : Filter.filter_stream_t doc) :
  obeys_contract up_call (Filter.stream w) ->
  obeys_contract (call_within Filter.next) w.
Proof.
  apply (contract_by_invariant _
           (fun w => obeys_contract up_call (Filter.stream w))
           (fun w => exhausted up_call (Filter.stream w)));
    unfold call_within.
  - intros s res s' Hup [fuel Hnext].
    destruct (filter_next_pulls _ _ _ _ Hnext) as (k & _ & -> & _).
    by apply upstream_obeys_skip.
  - intros s s' Hup [fuel Hnext].
    destruct (filter_next_pulls _ _ _ _ Hnext) as (k & _ & -> & _ & _ & Hk & _).
    by apply upstream_exhausted_after.
  - intros s res s' Hdead [fuel Hnext].
    destruct (filter_next_pulls _ _ _ _ Hnext) as (k & _ & -> & _ & _ & Hk & _).
    rewrite upstream_exhausted_result_at in Hk by done.
    split; [done | by apply upstream_exhausted_skip].
  - intros s Hdead. exists {| Filter.stream := snd (JsonStream.next (Filter.stream s));
                              Filter.p := Filter.p s |}, 1.
    simpl. pose proof (upstream_exhausted_result_at _ 0 Hdead) as H0.
    unfold result_at, skip in H0. simpl in H0.
    destruct (JsonStream.next (Filter.stream s)) as [res up']. simpl in *.
    by subst res.
Qed.

Lemma mapping_obeys (w : Mapping.mapping_stream_t doc) :
  obeys_contract up_call (Mapping.stream w) ->
  obeys_contract (call_of Mapping.next) w.
Proof.
  apply (contract_by_invariant _
           (fun w => obeys_contract up_call (Mapping.stream w))
           (fun w => exhausted up_call (Mapping.stream w)));
    unfold call_of, Mapping.next.
  - intros s res s' Hup.
    destruct (JsonStream.next (Mapping.stream s)) as [[json|] up'] eqn:Hnext;
      intros [= <- <-]; simpl; by eapply upstream_obeys_next.
  - intros s s' Hup.
    destruct (JsonStream.next (Mapping.stream s)) as [[json|] up'] eqn:Hnext;
      intros [= <-]; simpl. by eapply obeys_contract_sentinel.
  - intros s res s' Hdead.
    destruct (JsonStream.next (Mapping.stream s)) as [r up'] eqn:Hnext.
    destruct (upstream_exhausted_next _ _ _ Hdead Hnext) as [-> Hup'].
    by intros [= <- <-].
  - intros s Hdead.
    destruct (JsonStream.next (Mapping.stream s)) as [r up'] eqn:Hnext.
    destruct (upstream_exhausted_next _ _ _ Hdead Hnext) as [-> Hup']. eauto.
Qed.

Lemma concat_mapping_sentinel fuel (w w' : ConcatMapping.concat_mapping_stream_t doc) :
  ConcatMapping.next fuel w = Some (None, w') ->
  ConcatMapping.substream w' = None.
Proof.
  revert w. induction fuel as [|fuel IH]; intros w; [discriminate|].
  rewrite concat_mapping_next_succ.
  destruct (ConcatMapping.substream w) as [sub|] eqn:Hsub; [|by intros [= <-]].
  destruct (JsonStream.next sub) as [[res|] sub']; [discriminate|].
  destruct (JsonStream.next (ConcatMapping.stream w)) as [[json|] up']; apply IH.
Qed.

Lemma concat_mapping_obeys (w : ConcatMapping.concat_mapping_stream_t doc) :
  obeys_contract (call_within ConcatMapping.next) w.
Proof.
  apply (contract_by_invariant _ (fun _ => True)
           (fun w => ConcatMapping.substream w = None));
    unfold call_within; try done.
  - intros s s' _ [fuel Hnext]. by eapply concat_mapping_sentinel.
  - intros s res s' Hdead [[|fuel] Hnext]; [discriminate|].
    rewrite concat_mapping_next_succ, Hdead in Hnext. by injection Hnext as <- <-.
  - intros s Hdead. exists s, 1. by rewrite concat_mapping_next_succ, Hdead.
Qed.

Lemma limit_obeys (w : Limit.limit_stream_t doc) :
  obeys_contract up_call (Limit.stream w) ->
  obeys_contract (call_of Limit.next) w.
Proof.
  apply (contract_by_invariant _
           (fun w => obeys_contract up_call (Limit.stream w))
           (fun w => Limit.limit w = 0%Z \/ exhausted up_call (Limit.stream w)));
    unfold call_of, Limit.next.
  - intros s res s' Hup. destruct (Z.eqb_spec (Limit.limit s) 0).
    + by intros [= <- <-].
    + destruct (JsonStream.next (Limit.stream s)) as [r up'] eqn:Hnext.
      intros [= <- <-]. simpl. by eapply upstream_obeys_next.
  - intros s s' Hup. destruct (Z.eqb_spec (Limit.limit s) 0).
    + intros [= <-]. by left.
    + destruct (JsonStream.next (Limit.stream s)) as [r up'] eqn:Hnext.
      intros [= -> <-]. right. simpl. by eapply obeys_contract_sentinel.
  - intros s res s' Hdead. destruct (Z.eqb_spec (Limit.limit s) 0) as [H0|Hne].
    + intros [= <- <-]. split; [done | by left].
    + destruct Hdead as [?|Hdead]; [done|].
      destruct (JsonStream.next (Limit.stream s)) as [r up'] eqn:Hnext.
      destruct (upstream_exhausted_next _ _ _ Hdead Hnext) as [-> Hup'].
      intros [= <- <-]. split; [done | by right].
  - intros s Hdead. destruct (Z.eqb_spec (Limit.limit s) 0) as [H0|Hne]; [eauto|].
    destruct Hdead as [?|Hdead]; [done|].
    destruct (JsonStream.next (Limit.stream s)) as [r up'] eqn:Hnext.
    destruct (upstream_exhausted_next _ _ _ Hdead Hnext) as [-> Hup']. eauto.
Qed.

Lemma stream_t_next_stream (m : Multiplexer.stream_multiplexer_t doc) index :
  exists j, Multiplexer.stream (snd (fst (Multiplexer.next m index)))
            = skip JsonStream.next j (Multiplexer.stream m).
Proof.
  unfold Multiplexer.next.
  destruct (read_until_calls (S index - length (Multiplexer.data m)) m)
    as (j & Hstream & _).
  exists j. by destruct (Multiplexer.read_until _ m) as [[|] m'].
Qed.

Lemma run_schedule_stream schedule (σ : Multiplexer.shared_t doc) :
  exists j,
    Multiplexer.stream (Multiplexer.parent (snd (Multiplexer.run_schedule schedule σ)))
    = skip JsonStream.next j (Multiplexer.stream (Multiplexer.parent σ)).
Proof.
  revert σ. induction schedule as [|c later IH]; intros σ; [by exists 0|].
  cbn [Multiplexer.run_schedule]. unfold Multiplexer.consumer_next.
  destruct (Multiplexer.indices σ !! c) as [index|]; [|apply IH].
  destruct (stream_t_next_stream (Multiplexer.parent σ) index) as [j Hj].
  destruct (Multiplexer.next (Multiplexer.parent σ) index) as [[res m'] index'].
  simpl in Hj.
  destruct (IH {| Multiplexer.parent := m';
                  Multiplexer.indices := <[c := index']> (Multiplexer.indices σ) |})
    as [j' Hj'].
  destruct (Multiplexer.run_schedule later _) as [log σ']. simpl in *.
  exists (j + j'). by rewrite Hj', Hj, skip_add.
Qed.

(** With an exhausted upstream a call leaves the buffer as it is, and a
    consumer at the end of the buffer is handed the sentinel. *)
Lemma stream_t_next_exhausted (m : Multiplexer.stream_multiplexer_t doc) index :
  exhausted up_call (Multiplexer.stream m) ->
  Multiplexer.data (snd (fst (Multiplexer.next m index))) = Multiplexer.data m
  /\ exhausted up_call (Multiplexer.stream (snd (fst (Multiplexer.next m index))))
  /\ (length (Multiplexer.data m) <= index ->
      fst (fst (Multiplexer.next m index)) = None
      /\ snd (Multiplexer.next m index) = index).
Proof.
  intros Hup. rewrite stream_t_next_unfold. case_decide as Hle.
  - unfold Multiplexer.maybe_read_more.
    destruct (JsonStream.next (Multiplexer.stream m)) as [res up'] eqn:Hnext.
    by destruct (upstream_exhausted_next _ _ _ Hup Hnext) as [-> Hup'].
  - simpl. split; [done|]. split; [done|]. lia.
Qed.

Lemma run_schedule_exhausted c others (σ : Multiplexer.shared_t doc) :
  Forall (fun c' => c' <> c) others ->
  exhausted up_call (Multiplexer.stream (Multiplexer.parent σ)) ->
  Multiplexer.data (Multiplexer.parent (snd (Multiplexer.run_schedule others σ)))
  = Multiplexer.data (Multiplexer.parent σ)
  /\ exhausted up_call
       (Multiplexer.stream
          (Multiplexer.parent (snd (Multiplexer.run_schedule others σ))))
  /\ Multiplexer.indices (snd (Multiplexer.run_schedule others σ)) !! c
     = Multiplexer.indices σ !! c.
Proof.
  intros Hothers. revert σ.
  induction Hothers as [|c' later Hne _ IH]; intros σ Hup; [done|].
  cbn [Multiplexer.run_schedule]. unfold Multiplexer.consumer_next.
  destruct (Multiplexer.indices σ !! c') as [index|]; [|by apply IH].
  destruct (stream_t_next_exhausted (Multiplexer.parent σ) index Hup)
    as (Hdata & Hup' & _).
  destruct (Multiplexer.next (Multiplexer.parent σ) index) as [[res m'] index'].
  simpl in Hdata, Hup'.
  destruct (IH {| Multiplexer.parent := m';
                  Multiplexer.indices := <[c' := index']> (Multiplexer.indices σ) |}
               Hup') as (Hdata' & Hup'' & Hindex).
  destruct (Multiplexer.run_schedule later _) as [log σ']. simpl in *.
  rewrite Hdata', Hdata, Hindex. by rewrite list_lookup_insert_ne.
Qed.

(** A consumer is handed the sentinel only at the end of the buffer, when
    the upstream has just given the sentinel. *)
Lemma stream_t_next_sentinel (m m' : Multiplexer.stream_multiplexer_t doc)
    index index' :
  obeys_contract up_call (Multiplexer.stream m) ->
  Multiplexer.next m index = (None, m', index') ->
  exhausted up_call (Multiplexer.stream m')
  /\ index' = index
  /\ length (Multiplexer.data m') <= index.
Proof.
  intros Hup. unfold Multiplexer.next.
  destruct (read_until_calls (S index - length (Multiplexer.data m)) m)
    as (j & Hstream & Hdata & Hb).
  destruct (Multiplexer.read_until _ m) as [b m1]. cbn [fst snd] in *.
  pose proof (f_equal length Hdata) as Hlen. rewrite length_app in Hlen.
  destruct b.
  - destruct (lookup_lt_is_Some_2 (Multiplexer.data m1) index) as [d Hd]; [lia|].
    rewrite Hd. discriminate.
  - destruct Hb as (Hj & Hshort & Hres). intros [= <- <-].
    split; [|lia]. rewrite Hstream. replace j with (S (j - 1)) by lia.
    by apply upstream_exhausted_after.
Qed.

Lemma multiplexer_consumer_obeys c (σ : Multiplexer.shared_t doc) :
  obeys_contract up_call (Multiplexer.stream (Multiplexer.parent σ)) ->
  obeys_contract (Multiplexer.call_of_consumer c) σ.
Proof.
  apply (contract_by_invariant _
           (fun σ => obeys_contract up_call
                       (Multiplexer.stream (Multiplexer.parent σ)))
           (fun σ => exhausted up_call
                       (Multiplexer.stream (Multiplexer.parent σ))
                     /\ exists index,
                          Multiplexer.indices σ !! c = Some index
                          /\ length (Multiplexer.data (Multiplexer.parent σ))
                             <= index));
    unfold Multiplexer.call_of_consumer.
  - intros s res s' Hup (others & _ & Hnext).
    destruct (run_schedule_stream others s) as [j Hj].
    unfold Multiplexer.consumer_next in Hnext.
    destruct (Multiplexer.indices _ !! c) as [index|]; [|discriminate].
    destruct (stream_t_next_stream
                (Multiplexer.parent (snd (Multiplexer.run_schedule others s)))
                index) as [j' Hj'].
    destruct (Multiplexer.next _ index) as [[r m'] index'].
    injection Hnext as <- <-. simpl in *. rewrite Hj', Hj.
    by apply upstream_obeys_skip, upstream_obeys_skip.
  - intros s s' Hup (others & _ & Hnext).
    destruct (run_schedule_stream others s) as [j Hj].
    unfold Multiplexer.consumer_next in Hnext.
    destruct (Multiplexer.indices _ !! c) as [index|] eqn:Hindex; [|discriminate].
    destruct (Multiplexer.next _ index) as [[r m'] index'] eqn:Hcall.
    injection Hnext as -> <-.
    apply stream_t_next_sentinel in Hcall as (Hup' & -> & Hend);
      [|rewrite Hj; by apply upstream_obeys_skip].
    split; [done|]. exists index. split; [|done].
    apply list_lookup_insert_eq. by eapply lookup_lt_Some.
  - intros s res s' (Hup & index & Hindex & Hend) (others & Hothers & Hnext).
    destruct (run_schedule_exhausted c others s Hothers Hup)
      as (Hdata & Hup1 & Hindex1).
    unfold Multiplexer.consumer_next in Hnext. rewrite Hindex1, Hindex in Hnext.
    destruct (stream_t_next_exhausted _ index Hup1) as (Hdata' & Hup' & Hnone).
    destruct Hnone as [Hres Hsame]; [by rewrite Hdata|].
    destruct (Multiplexer.next _ index) as [[r m'] index'].
    injection Hnext as <- <-. simpl in *. subst r index'.
    split; [done|]. split; [done|]. exists index. split.
    + apply list_lookup_insert_eq. apply lookup_lt_Some with index.
      by rewrite Hindex1.
    + by rewrite Hdata', Hdata.
  - intros s (Hup & index & Hindex & Hend).
    destruct (stream_t_next_exhausted (Multiplexer.parent s) index Hup)
      as (_ & _ & Hnone).
    destruct (Hnone Hend) as [Hres _].
    destruct (Multiplexer.next (Multiplexer.parent s) index)
      as [[r m'] index'] eqn:Hcall.
    simpl in Hres. subst r.
    exists {| Multiplexer.parent := m';
              Multiplexer.indices := <[c := index']> (Multiplexer.indices s) |}, [].
    split; [constructor|]. simpl. unfold Multiplexer.consumer_next.
    by rewrite Hindex, Hcall.
Qed.

(** C4, as amended: the exhaustion contract is that once a call to
    [next()] has returned the sentinel every later call returns, and
    returns the sentinel.  An in-memory stream keeps it exactly when no
    null entry of its buffer has a document behind it, so whenever the
    buffer holds no null entry.  Union and concat-mapping streams keep it
    whatever their upstreams do; filter, mapping and limit streams and
    the consumers of a multiplexer keep it when their upstream does.  For
    a consumer, the other consumers may call [next()] in between. *)
Theorem exhaustion_is_final :
  (forall data : list (option doc),
      obeys_contract (call_of InMemory.next) data <->
      (forall i j d, i <= j ->
         data !! i = Some None -> data !! j <> Some (Some d)))
  /\ (forall data : list (option doc),
         Forall is_Some data -> obeys_contract (call_of InMemory.next) data)
  /\ (forall σ : (nat -> json_stream_t doc) * Union.union_stream_t,
         obeys_contract (call_of Union.next) σ)
  /\ (forall w : Filter.filter_stream_t doc,
         obeys_contract (call_of JsonStream.next) (Filter.stream w) ->
         obeys_contract (call_within Filter.next) w)
  /\ (forall w : Mapping.mapping_stream_t doc,
         obeys_contract (call_of JsonStream.next) (Mapping.stream w) ->
         obeys_contract (call_of Mapping.next) w)
  /\ (forall w : ConcatMapping.concat_mapping_stream_t doc,
         obeys_contract (call_within ConcatMapping.next) w)
  /\ (forall w : Limit.limit_stream_t doc,
         obeys_contract (call_of JsonStream.next) (Limit.stream w) ->
         obeys_contract (call_of Limit.next) w)
  /\ (forall c (σ : Multiplexer.shared_t doc),
         obeys_contract (call_of JsonStream.next)
           (Multiplexer.stream (Multiplexer.parent σ)) ->
         obeys_contract (Multiplexer.call_of_consumer c) σ).
Proof.
  split; [exact in_memory_obeys_iff|]. split; [exact in_memory_obeys|].
  split; [exact union_obeys|].
  split; [exact filter_obeys|]. split; [exact mapping_obeys|].
  split; [exact concat_mapping_obeys|]. split; [exact limit_obeys|].
  exact multiplexer_consumer_obeys.
Qed.

End ExhaustionFacts.

(** * The theorems at sample inputs *)

Section Instances.

Lemma in_memory_object_obeys {doc : Type} (data : list (option doc)) :
  Forall is_Some data ->
  obeys_contract (call_of JsonStream.next) (InMemory.in_memory_stream_t data).
Proof.
  intros Hdata.
  apply (contract_by_invariant _
           (fun s => exists data n,
                Forall is_Some data
                /\ s = Object (list (option doc)) data InMemory.next n)
           (fun s => exists n, s = Object (list (option doc)) [] InMemory.next n));
    unfold call_of.
  - intros s res s' (d & n & Hd & ->). unfold JsonStream.next. simpl.
    destruct d as [|x d]; intros [= <- <-]; [by eauto|].
    apply Forall_cons in Hd as [_ Hd]. eauto.
  - intros s s' (d & n & Hd & ->). unfold JsonStream.next. simpl.
    destruct d as [|x d]; [intros [= <-]; eauto|].
    apply Forall_cons in Hd as [[y ->] _]. discriminate.
  - intros s res s' (n & ->). unfold JsonStream.next. simpl.
    intros [= <- <-]. eauto.
  - intros s (n & ->). eexists. reflexivity.
  - by exists data, 0.
Qed.

Lemma samples_hold_documents :
  Forall is_Some [Some 1; Some 2; Some 3; Some 4]
  /\ Forall is_Some [Some 1; Some 2].
Proof. split; repeat constructor; eauto. Qed.

Example get_sample :
  VariableScope.get "x" Samples.scopes = Some 2
  /\ VariableScope.get "z" Samples.scopes = Some 4
  /\ VariableScope.get "w" Samples.scopes = None.
Proof. vm_compute. done. Qed.

Example dump_sample :
  VariableScope.dump Samples.scopes
  = <["y" := 1]> (<["x" := 2]> (<["z" := 4]> ∅)).
Proof. by vm_compute. Qed.

Lemma get_returns_newest_binding_witness :
  exists t,
    VariableScope.get "x" Samples.scopes = Some t
    /\ exists newer it older,
         Samples.scopes = newer ++ it :: older
         /\ Forall (fun fr => fr !! "x" = None) newer
         /\ it !! "x" = Some t.
Proof. apply get_returns_newest_binding. reflexivity. Defined.

Lemma dump_agrees_with_get_witness :
  VariableScope.dump Samples.scopes !! "x" = VariableScope.get "x" Samples.scopes
  /\ (exists t newer it older,
         VariableScope.dump Samples.scopes !! "x" = Some t
         /\ Samples.scopes = newer ++ it :: older
         /\ Forall (fun fr => fr !! "x" = None) newer
         /\ it !! "x" = Some t)
  /\ VariableScope.dump Samples.scopes !! "w" = None.
Proof.
  split; [apply (dump_agrees_with_get "x" Samples.scopes)|]. split.
  - apply (dump_agrees_with_get "x" Samples.scopes). reflexivity.
  - apply (dump_agrees_with_get "w" Samples.scopes). reflexivity.
Defined.

Example new_scope_t_sample :
  VariableScope.new_scope_t Samples.failing_region Samples.scopes
  = Some (Thrown "runtime error", Samples.scopes).
Proof. by vm_compute. Qed.

Example impliciter_t_sample :
  ImplicitValue.impliciter_t (Some 5) Samples.reading_region [Some 1]
  = Some (Returned 5, [Some 1])
  /\ ImplicitValue.impliciter_t None Samples.reading_region [Some 1]
     = Some (Thrown "no implicit value", [Some 1]).
Proof. by vm_compute. Qed.

Lemma sentinels_restore_frame_count_witness :
  (exists after,
      VariableScope.new_scope_t Samples.failing_region Samples.scopes
      = Some (Thrown "runtime error", after)
      /\ length after = length Samples.scopes)
  /\ (exists after,
         ImplicitValue.impliciter_t (Some 5) Samples.reading_region [Some 1]
         = Some (Returned 5, after)
         /\ length after = 1).
Proof.
  destruct (@sentinels_restore_frame_count nat nat)
    as (_ & _ & Hscope & _ & _ & Himplicit).
  split.
  - eapply Hscope; reflexivity.
  - eapply (Himplicit (Some 5)); reflexivity.
Defined.

Example limit_sample :
  fst (run Limit.next 4 {| Limit.stream := Samples.upstream; Limit.limit := 2 |})
  = [Some 1; Some 2; None; None]
  /\ calls (Limit.stream
              (snd (run Limit.next 4
                      {| Limit.stream := Samples.upstream; Limit.limit := 2 |})))
     = 2
  /\ Limit.limit_stream Samples.upstream (-1) = None.
Proof. by vm_compute. Qed.

Lemma limit_emits_and_pulls_at_most_n_witness :
  exists w,
    Limit.limit_stream Samples.upstream 2 = Some w
    /\ forall k,
        let results := fst (run Limit.next k w) in
        let w' := snd (run Limit.next k w) in
        (Z.of_nat (length (documents results)) <= 2)%Z
        /\ calls (Limit.stream w') = calls Samples.upstream + min k (Z.to_nat 2)
        /\ (Z.of_nat (calls (Limit.stream w') - calls Samples.upstream) <= 2)%Z
        /\ (Z.of_nat (length (documents results)) = 2%Z ->
            forall j, run Limit.next j w' = (replicate j None, w')).
Proof. apply limit_emits_and_pulls_at_most_n. lia. Defined.

Example filter_sample :
  fst <$> drain (Filter.next 5) 5 (Filter.filter_stream Samples.upstream Nat.even)
  = Some [2; 4]
  /\ fst <$> Filter.next 5 (Filter.filter_stream Samples.upstream Nat.even)
     = Some (Some 2)
  /\ Filter.next 1 (Filter.filter_stream Samples.upstream Nat.even) = None.
Proof. by vm_compute. Qed.

Lemma filter_yields_matching_subsequence_witness :
  (exists k,
      skip JsonStream.next 2 Samples.upstream
      = skip JsonStream.next (S k) Samples.upstream
      /\ (forall j, j < k ->
          exists json,
            result_at JsonStream.next Samples.upstream j = Some json
            /\ Nat.even json = false)
      /\ result_at JsonStream.next Samples.upstream k = Some 2
      /\ (forall json, Some 2 = Some json -> Nat.even json = true))
  /\ drain (Filter.next 5) 5 (Filter.filter_stream Samples.upstream Nat.even)
     = Some (List.filter Nat.even [1; 2; 3; 4],
             Filter.filter_stream (skip JsonStream.next 5 Samples.upstream)
               Nat.even).
Proof.
  destruct (@filter_yields_matching_subsequence nat) as (Hcall & _ & Hdrain).
  split.
  - apply (Hcall 5 (Filter.filter_stream Samples.upstream Nat.even) (Some 2)
             (Filter.filter_stream (skip JsonStream.next 2 Samples.upstream)
                Nat.even)).
    reflexivity.
  - apply (Hdrain 5); [reflexivity | lia].
Defined.

Example concat_mapping_sample :
  fst <$> drain (ConcatMapping.next 8) 8
            (ConcatMapping.concat_mapping_stream Samples.short_upstream
               Samples.twice)
  = Some [1; 1; 2; 2]
  /\ calls (ConcatMapping.stream
              (ConcatMapping.concat_mapping_stream Samples.short_upstream
                 Samples.twice))
     = 1.
Proof. by vm_compute. Qed.

Lemma concat_mapping_yields_substreams_in_order_witness :
  exists N, forall fuel, N <= fuel ->
    drain (ConcatMapping.next fuel) fuel
      (ConcatMapping.concat_mapping_stream Samples.short_upstream Samples.twice)
    = Some (concat (map (fun d => [d; d]) [1; 2]),
            {| ConcatMapping.stream := skip JsonStream.next 3 Samples.short_upstream;
               ConcatMapping.substream := None;
               ConcatMapping.f := Samples.twice |}).
Proof.
  destruct (@concat_mapping_yields_substreams_in_order nat)
    as (_ & _ & _ & Hdrain).
  apply (Hdrain Samples.twice (fun d => [d; d]) 3); [reflexivity|].
  constructor.
  { exists 3, (skip JsonStream.next 3 (Samples.twice 1)). reflexivity. }
  constructor.
  { exists 3, (skip JsonStream.next 3 (Samples.twice 2)). reflexivity. }
  constructor.
Defined.

Example multiplexer_sample :
  let log := fst (Multiplexer.run_schedule Samples.schedule Samples.two_consumers) in
  let σ := snd (Multiplexer.run_schedule Samples.schedule Samples.two_consumers) in
  Multiplexer.results_of 0 log = [Some 1; Some 2; None; None]
  /\ Multiplexer.results_of 1 log = [Some 1; Some 2; None; None]
  /\ Multiplexer.data (Multiplexer.parent σ) = [1; 2]
  /\ calls (Multiplexer.stream (Multiplexer.parent σ)) = 6.
Proof. by vm_compute. Qed.


Lemma exhaustion_is_final_witness :
  obeys_contract (call_of InMemory.next) [Some 1; Some 2]
  /\ obeys_contract (call_of InMemory.next) [Some 1; None; None]
  /\ obeys_contract (call_within Filter.next)
       (Filter.filter_stream Samples.upstream Nat.even)
  /\ obeys_contract (call_of Mapping.next)
       (Mapping.mapping_stream Samples.upstream S)
  /\ obeys_contract (call_of Limit.next)
       {| Limit.stream := Samples.upstream; Limit.limit := 2 |}
  /\ obeys_contract (Multiplexer.call_of_consumer 0) Samples.two_consumers.
Proof.
  destruct (@exhaustion_is_final nat)
    as (Hexact & Hmemory & _ & Hfilter & Hmapping & _ & Hlimit & Hconsumer).
  destruct samples_hold_documents as [Hlong Hshort].
  split; [|split; [|split; [|split; [|split]]]].
  - apply Hmemory, Hshort.
  - apply Hexact. intros [|[|[|i]]] [|[|[|j]]] d Hij Hi Hj;
      simpl in *; (discriminate || lia).
  - apply Hfilter, in_memory_object_obeys, Hlong.
  - apply Hmapping, in_memory_object_obeys, Hlong.
  - apply Hlimit, in_memory_object_obeys, Hlong.
  - apply Hconsumer, in_memory_object_obeys, Hshort.
Defined.

Lemma exhaustion_is_final_counterexample :
  fst (run InMemory.next 3 [Some 1; None; Some 2]) = [Some 1; None; Some 2]
  /\ ~ obeys_contract (call_of (@InMemory.next nat)) [Some 1; None; Some 2].
Proof.
  split; [reflexivity|]. intros Hobeys.
  pose proof (proj1 (contract_iff_results InMemory.next _) Hobeys 1 2) as Hlater.
  specialize (Hlater ltac:(lia) eq_refl). discriminate Hlater.
Qed.

Example union_sample :
  fst (run Union.next 5 (Samples.objects, Union.union_stream [0; 1; 2]))
  = [Some 1; Some 2; Some 3; None; None].
Proof. by vm_compute. Qed.

(** A list that names one stream object twice drains it once. *)
Example union_alias_sample :
  fst (run Union.next 4 (Samples.objects, Union.union_stream [0; 0]))
  = [Some 1; Some 2; None; None].
Proof. by vm_compute. Qed.

Example mapping_sample :
  fst (run Mapping.next 3 (Mapping.mapping_stream Samples.short_upstream S))
  = [Some 2; Some 3; None].
Proof. by vm_compute. Qed.

End Instances.

(** * Further properties of the scope stacks *)

Section ScopeBindings.
Context {T : Type}.
Implicit Types (scopes older : list (gmap string T)) (name : string).

Lemma dump_lookup name scopes :
  VariableScope.dump scopes !! name = VariableScope.get name scopes.
Proof.
  unfold VariableScope.dump. rewrite dump_from_lookup. by rewrite lookup_empty.
Qed.

(** X1: on a stack that has a frame, [put_in_scope] succeeds; afterwards
    [get] and [is_in_scope] find the new value under [name], whatever was
    bound to [name] before in any frame, every other name reads as it did,
    and the number of frames is the same. *)
Theorem put_in_scope_then_get name (t : T) scopes :
  scopes <> [] ->
  exists scopes',
    VariableScope.put_in_scope name t scopes = Some scopes'
    /\ VariableScope.get name scopes' = Some t
    /\ VariableScope.is_in_scope name scopes' = true
    /\ (forall other, other <> name ->
          VariableScope.get other scopes' = VariableScope.get other scopes)
    /\ length scopes' = length scopes.
Proof.
  destruct scopes as [|front older]; [done|]. intros _.
  eexists. split; [reflexivity|]. simpl. rewrite lookup_insert_eq.
  repeat split. intros other Hne. by rewrite lookup_insert_ne.
Qed.

(** X2: a binding made in a fresh frame shadows every outer binding of
    the name, and popping the frame gives back the very stack there was
    before [push]; so a [new_scope_t] region whose body binds a name
    leaves the stack exactly as it found it, on either exit path. *)
Theorem inner_binding_shadows_until_pop name (t : T) scopes :
  exists inner,
    VariableScope.put_in_scope name t (VariableScope.push scopes) = Some inner
    /\ VariableScope.get name inner = Some t
    /\ VariableScope.pop inner = Some scopes
    /\ forall (V : Type) (o : outcome V),
         VariableScope.new_scope_t
           (fun s => match VariableScope.put_in_scope name t s with
                     | Some s' => Some (o, s')
                     | None => None
                     end) scopes
         = Some (o, scopes).
Proof.
  eexists. split; [reflexivity|]. simpl. rewrite lookup_insert_eq.
  repeat split. intros V o. by destruct o.
Qed.

(** X3: [get] runs into its [unreachable] exactly for the names that
    [is_in_scope] rejects; on the empty stack that is every name. *)
Theorem get_fails_exactly_out_of_scope name scopes :
  (VariableScope.get name scopes = None
   <-> VariableScope.is_in_scope name scopes = false)
  /\ VariableScope.get name (@nil (gmap string T)) = None.
Proof.
  split; [|done].
  pose proof (is_in_scope_get name scopes) as Hin.
  destruct (VariableScope.is_in_scope name scopes) eqn:Hscope.
  - destruct (proj1 Hin eq_refl) as [t Ht]. rewrite Ht. by split.
  - destruct (VariableScope.get name scopes) as [t|] eqn:Hget; [|done].
    assert (false = true) by (apply Hin; eauto). done.
Qed.

(** X4: [dump] is the left-biased union of the frames, newest first: an
    empty stack dumps to the empty map, a frame in front overrides the
    dump of the frames behind it, and an empty frame changes nothing. *)
Theorem dump_is_left_biased_union (sit : gmap string T) scopes :
  VariableScope.dump (@nil (gmap string T)) = ∅
  /\ VariableScope.dump (sit :: scopes) = sit ∪ VariableScope.dump scopes
  /\ VariableScope.dump (VariableScope.push scopes) = VariableScope.dump scopes.
Proof.
  assert (forall fr, VariableScope.dump (fr :: scopes)
                     = fr ∪ VariableScope.dump scopes) as Hcons.
  { intros fr. apply map_eq. intros name.
    rewrite lookup_union, !dump_lookup. simpl.
    destruct (fr !! name), (VariableScope.get name scopes); done. }
  split; [done|]. split; [apply Hcons|].
  unfold VariableScope.push. rewrite Hcons. by rewrite (left_id_L ∅ (∪)).
Qed.

(** X5: binding a name and then dumping gives the dump of before with
    the name set to the new value. *)
Theorem dump_after_put_in_scope name (t : T) scopes scopes' :
  VariableScope.put_in_scope name t scopes = Some scopes' ->
  VariableScope.dump scopes' = <[name := t]> (VariableScope.dump scopes).
Proof.
  destruct scopes as [|front older]; [discriminate|]. intros [= <-].
  apply map_eq. intros other. rewrite dump_lookup. simpl.
  destruct (decide (name = other)) as [->|Hne].
  - by rewrite !lookup_insert_eq.
  - rewrite !lookup_insert_ne by done. by rewrite dump_lookup.
Qed.

End ScopeBindings.

(** * Further properties of the implicit value stack *)

Section ImplicitFacts.
Context {T : Type}.
Implicit Types (scopes : list (option T)).

(** X6: [get_value] has a value to return exactly when [has_value]
    answers true, and [has_value] has an answer exactly when the stack has
    a frame. *)
Theorem get_value_defined_iff_has_value scopes :
  (is_Some (ImplicitValue.get_value scopes)
   <-> ImplicitValue.has_value scopes = Some true)
  /\ (ImplicitValue.has_value scopes = None <-> scopes = []).
Proof.
  destruct scopes as [|[t|] older]; simpl; split; split; try done;
    try (intros [? ?]; done); eauto.
Qed.

(** X7: a region under an [impliciter_t] that only reads the stack sees
    the pushed frame in front of the outer stack, and when it is left the
    outer stack is back unchanged, so the outer implicit value is the
    current one again. *)
Theorem impliciter_t_scopes_the_value {V : Type} (init : option T)
    (read : list (option T) -> outcome V) scopes :
  ImplicitValue.impliciter_t init (fun s => Some (read s, s)) scopes
  = Some (read (init :: scopes), scopes)
  /\ ImplicitValue.get_value (init :: scopes) = init
  /\ ImplicitValue.pop (ImplicitValue.push scopes) = Some scopes
  /\ (forall t, ImplicitValue.pop (ImplicitValue.push_value t scopes)
                = Some scopes).
Proof.
  split; [|done]. unfold ImplicitValue.impliciter_t.
  unfold ImplicitValue.push, ImplicitValue.push_value.
  destruct init as [t|]; simpl.
  - by destruct (read (Some t :: scopes)).
  - by destruct (read (None :: scopes)).
Qed.

End ImplicitFacts.

(** * Further properties of streams *)

Section DrainFacts.
Context {doc St : Type}.
Implicit Types (nx : St -> option doc * St) (s : St).

Lemma results_shift nx s n :
  map (result_at nx s) (seq 1 n)
  = map (result_at nx (snd (nx s))) (seq 0 n).
Proof.
  rewrite <- (fmap_S_seq 0 n), <- list_fmap_compose.
  apply list_fmap_ext. intros _ j _. simpl. apply result_at_succ.
Qed.

(** What the draining loop computes, in terms of the calls it makes. *)
Lemma drain_total_spec nx fuel s data s' :
  drain (total nx) fuel s = Some (data, s') <->
  length data < fuel
  /\ map (result_at nx s) (seq 0 (length data)) = map Some data
  /\ result_at nx s (length data) = None
  /\ s' = skip nx (S (length data)) s.
Proof.
  revert s data s'. induction fuel as [|fuel IH]; intros s data s'.
  { split; [discriminate | intros [? _]; lia]. }
  rewrite drain_succ. unfold total at 1.
  destruct (nx s) as [[json|] s1] eqn:Hnx.
  - split.
    + destruct (drain (total nx) fuel s1) as [[data1 s2]|] eqn:Hrest;
        [|discriminate].
      intros [= <- <-]. apply IH in Hrest as (Hlen & Hmap & Hend & ->).
      simpl. rewrite results_shift, result_at_succ, (skip_succ nx (S _)), Hnx.
      simpl. rewrite Hmap.
      repeat split; [lia | | done].
      unfold result_at, skip. simpl. by rewrite Hnx.
    + intros (Hlen & Hmap & Hend & ->). destruct data as [|d data1].
      { unfold result_at, skip in Hend. simpl in Hend. by rewrite Hnx in Hend. }
      simpl in Hlen, Hmap, Hend.
      rewrite results_shift, Hnx in Hmap. rewrite result_at_succ, Hnx in Hend.
      injection Hmap as Hhead Hmap.
      unfold result_at, skip in Hhead. simpl in Hhead. rewrite Hnx in Hhead.
      injection Hhead as ->.
      assert (drain (total nx) fuel s1
              = Some (data1, skip nx (S (length data1)) s1)) as ->.
      { apply IH. repeat split; [lia | done | done]. }
      simpl. by rewrite (skip_succ nx (S _)), Hnx.
  - split.
    + intros [= <- <-]. simpl. unfold result_at, skip. simpl. rewrite Hnx.
      repeat split; lia.
    + intros (Hlen & Hmap & Hend & ->). destruct data as [|d data1].
      * unfold skip. simpl. by rewrite Hnx.
      * simpl in Hmap. injection Hmap as Hhead _.
        unfold result_at, skip in Hhead. simpl in Hhead.
        by rewrite Hnx in Hhead.
Qed.

End DrainFacts.

Section InMemoryFacts.
Context {doc : Type}.
Implicit Types (docs : list doc) (up : json_stream_t doc).

Lemma in_memory_skip (data : list (option doc)) n k :
  skip JsonStream.next k (Object (list (option doc)) data InMemory.next n)
  = Object (list (option doc)) (drop k data) InMemory.next (n + k).
Proof.
  revert data n. induction k as [|k IH]; intros data n.
  - unfold skip. simpl. by rewrite drop_0, Nat.add_0_r.
  - rewrite skip_succ. unfold JsonStream.next at 1. simpl.
    destruct data as [|d data]; simpl; rewrite IH.
    + rewrite drop_nil. f_equal. lia.
    + f_equal. lia.
Qed.

Lemma in_memory_result_at (data : list (option doc)) j :
  result_at JsonStream.next (InMemory.in_memory_stream_t data) j
  = default None (data !! j).
Proof.
  unfold result_at, InMemory.in_memory_stream_t. rewrite in_memory_skip.
  unfold JsonStream.next. simpl.
  rewrite <- (Nat.add_0_r j) at 2. rewrite <- lookup_drop.
  by destruct (drop j data).
Qed.

Lemma lookups_in_range docs (rest : list (option doc)) :
  map (fun j => default None ((map Some docs ++ rest) !! j))
      (seq 0 (length docs))
  = map Some docs.
Proof.
  apply list_eq. intros i. rewrite !list_lookup_fmap.
  destruct (decide (i < length docs)) as [Hlt|Hge].
  - rewrite lookup_seq_lt by done. simpl.
    rewrite lookup_app_l by (by rewrite length_map).
    rewrite list_lookup_fmap.
    destruct (lookup_lt_is_Some_2 docs i Hlt) as [x Hx]. by rewrite Hx.
  - rewrite lookup_seq_ge by lia. by rewrite lookup_ge_None_2 by lia.
Qed.

(** X8: [in_memory_stream_t(stream)] stores exactly the documents
    [stream] returns before its first sentinel, in their order, and calls
    [stream] once more than it stores: the constructor ends up with
    [data] iff the first [length data] results of [stream] are the
    documents of [data] and the next result is the sentinel. *)
Theorem from_stream_collects_until_first_sentinel fuel up data up' :
  InMemory.from_stream fuel up = Some (data, up') <->
  length data < fuel
  /\ map (result_at JsonStream.next up) (seq 0 (length data)) = map Some data
  /\ result_at JsonStream.next up (length data) = None
  /\ up' = skip JsonStream.next (S (length data)) up.
Proof. apply drain_total_spec. Qed.

(** X9: an in-memory stream hands out the entries of its buffer from
    the front, one a call and a null entry as the sentinel it is, and only
    sentinels once the buffer is empty.  Building a second in-memory
    stream from it therefore copies the documents in front of the first
    null entry, all of them when there is none, with one call more than
    it copies. *)
Theorem in_memory_replays_data :
  (forall (data : list (option doc)) j,
      result_at JsonStream.next (InMemory.in_memory_stream_t data) j
      = default None (data !! j))
  /\ (forall (data : list (option doc)) k,
         fst (run InMemory.next k data)
         = take k data ++ replicate (k - length data) None
         /\ snd (run InMemory.next k data) = drop k data)
  /\ (forall docs (rest : list (option doc)) fuel,
         length docs < fuel ->
         default None (rest !! 0) = None ->
         exists up',
           InMemory.from_stream fuel
             (InMemory.in_memory_stream_t (map Some docs ++ rest))
           = Some (docs, up')
           /\ calls up' = S (length docs)).
Proof.
  split; [apply in_memory_result_at|]. split.
  - intros data k. revert data. induction k as [|k IH]; intros data.
    + simpl. rewrite ?take_0, ?drop_0. done.
    + simpl. destruct data as [|d data]; simpl.
      * specialize (IH []). destruct (run InMemory.next k []) as [results s].
        simpl in *. destruct IH as [-> ->].
        rewrite take_nil, drop_nil, Nat.sub_0_r. done.
      * specialize (IH data). destruct (run InMemory.next k data) as [results s].
        simpl in *. by destruct IH as [-> ->].
  - intros docs rest fuel Hfuel Hrest. eexists. split.
    + apply drain_total_spec. split; [done|]. split; [|split; [|done]].
      * etransitivity; [|apply (lookups_in_range docs rest)].
        apply list_fmap_ext. intros _ j _. apply in_memory_result_at.
      * rewrite in_memory_result_at.
        rewrite lookup_app_r by (by rewrite length_map).
        by rewrite length_map, Nat.sub_diag.
    + rewrite skip_calls. simpl. lia.
Qed.

End InMemoryFacts.

Section UnionFacts.
Context {doc : Type}.
Implicit Types (pre rest : list nat) (objects : nat -> json_stream_t doc).

(** [next] of a union stream whose iterator stands after [pre]. *)
Lemma union_next_at objects pre rest :
  Union.next (objects,
              {| Union.streams := pre ++ rest; Union.hd := length pre |})
  = let '(res, objects', advanced) := Union.scan rest objects in
    (res, (objects', {| Union.streams := pre ++ rest;
                        Union.hd := length pre + advanced |})).
Proof. unfold Union.next. simpl. by rewrite drop_app_length. Qed.

(** A call on one stream object leaves the objects at other addresses. *)
Lemma drains_after_update objects l s rest (parts : list (list doc)) :
  l ∉ rest ->
  Forall2 (fun l' part => exists m s',
             drain (total JsonStream.next) m (objects l') = Some (part, s'))
          rest parts ->
  Forall2 (fun l' part => exists m s',
             drain (total JsonStream.next) m (Union.update l s objects l')
             = Some (part, s'))
          rest parts.
Proof.
  intros Hl Hparts.
  induction Hparts as [|l' part rest parts Hhead _ IH]; [constructor|].
  apply not_elem_of_cons in Hl as [Hne Hl]. constructor; [|by apply IH].
  unfold Union.update. by case_decide; [congruence|].
Qed.

Lemma union_drain_from rest :
  NoDup rest ->
  forall (parts : list (list doc)) objects,
    Forall2 (fun l part => exists m s',
               drain (total JsonStream.next) m (objects l) = Some (part, s'))
            rest parts ->
    forall pre, exists N, forall fuel, N <= fuel ->
      fst <$> drain (total Union.next) fuel
                (objects,
                 {| Union.streams := pre ++ rest; Union.hd := length pre |})
      = Some (concat parts).
Proof.
  induction 1 as [|l later Hl _ IH]; intros parts objects Hparts pre.
  - apply Forall2_nil_inv_l in Hparts as ->.
    exists 1. intros [|fuel] Hfuel; [lia|].
    rewrite drain_succ. unfold total. by rewrite union_next_at.
  - apply Forall2_cons_inv_l in Hparts
      as (part & parts' & (m & s' & Hs) & Hparts & ->).
    revert objects part s' Hs Hparts.
    induction m as [|m IHm]; intros objects part s' Hs Hparts; [discriminate|].
    rewrite drain_succ in Hs. unfold total at 1 in Hs.
    destruct (JsonStream.next (objects l)) as [[json|] s1] eqn:Hnext.
    + destruct (drain (total JsonStream.next) m s1) as [[part1 s2]|] eqn:Hrest;
        [|discriminate].
      injection Hs as <- <-.
      destruct (IHm (Union.update l s1 objects) part1 s2) as [N HN].
      { unfold Union.update. by case_decide. }
      { by apply drains_after_update. }
      exists (S N). intros [|fuel] Hfuel; [lia|].
      rewrite drain_succ. unfold total at 1. rewrite union_next_at.
      simpl. rewrite Hnext, Nat.add_0_r.
      specialize (HN fuel ltac:(lia)).
      destruct (drain (total Union.next) fuel _) as [[data u]|];
        [|discriminate].
      simpl in *. by injection HN as ->.
    + injection Hs as <- <-.
      destruct (IH parts' (Union.update l s1 objects)
                  (drains_after_update _ _ _ _ _ Hl Hparts) (pre ++ [l]))
        as [N HN].
      exists (S N). intros [|fuel] Hfuel; [lia|].
      specialize (HN (S fuel) ltac:(lia)).
      rewrite drain_succ in HN |- *.
      unfold total at 1 in HN. unfold total at 1.
      rewrite union_next_at in HN |- *. simpl. rewrite Hnext.
      destruct (Union.scan later _) as [[res objects'] advanced].
      rewrite length_app, <- !app_assoc in HN. simpl in HN.
      by replace (length pre + S advanced) with (length pre + 1 + advanced) by lia.
Qed.


(** X11: an exhausted union stream and an exhausted concat-mapping
    stream are inert: every later call returns the sentinel and leaves
    the whole stream as it is, so no upstream is called again. *)
Theorem exhausted_union_and_concat_mapping_are_inert :
  (forall (σ σ' : (nat -> json_stream_t doc) * Union.union_stream_t),
      Union.next σ = (None, σ') ->
      forall k, run Union.next k σ' = (replicate k None, σ'))
  /\ (forall fuel (w w' : ConcatMapping.concat_mapping_stream_t doc),
         ConcatMapping.next fuel w = Some (None, w') ->
         forall fuel', ConcatMapping.next (S fuel') w' = Some (None, w')).
Proof.
  split.
  - intros [objects u] σ' Hnext.
    assert (Union.next σ' = (None, σ')) as Hfix.
    { unfold Union.next in Hnext.
      pose proof (union_scan_sentinel (drop (Union.hd u) (Union.streams u))
                    objects) as Hend.
      destruct (Union.scan _ objects) as [[res objects'] advanced]. simpl in *.
      injection Hnext as -> <-. specialize (Hend eq_refl).
      unfold Union.next. cbn [Union.hd Union.streams].
      rewrite drop_ge by (rewrite Hend, length_drop; lia).
      simpl. by rewrite Nat.add_0_r. }
    intros k. induction k as [|k IH]; simpl; [done|]. by rewrite Hfix, IH.
  - intros fuel w w' Hnext fuel'.
    by rewrite concat_mapping_next_succ, (concat_mapping_sentinel _ _ _ Hnext).
Qed.

End UnionFacts.

Section MappingFacts.
Context {doc : Type}.

(** X12: a mapping stream is one-in, one-out: the results of its first
    [k] calls are the first [k] results of its upstream with [f] applied
    to the documents, and it has called the upstream exactly [k] times,
    also when those calls returned sentinels. *)
Theorem mapping_is_pointwise (w : Mapping.mapping_stream_t doc) k :
  run Mapping.next k w
  = (map (fmap (Mapping.f w)) (fst (run JsonStream.next k (Mapping.stream w))),
     {| Mapping.stream := skip JsonStream.next k (Mapping.stream w);
        Mapping.f := Mapping.f w |})
  /\ calls (Mapping.stream (snd (run Mapping.next k w)))
     = calls (Mapping.stream w) + k.
Proof.
  assert (run Mapping.next k w
          = (map (fmap (Mapping.f w))
               (fst (run JsonStream.next k (Mapping.stream w))),
             {| Mapping.stream := skip JsonStream.next k (Mapping.stream w);
                Mapping.f := Mapping.f w |})) as Hrun.
  { revert w. induction k as [|k IH]; intros w.
    - unfold skip. simpl. by destruct w.
    - rewrite skip_succ. simpl. unfold Mapping.next at 1.
      destruct (JsonStream.next (Mapping.stream w)) as [[json|] up'];
        rewrite IH; simpl; by destruct (run JsonStream.next k up'). }
  split; [done|]. rewrite Hrun. simpl. apply skip_calls.
Qed.

End MappingFacts.

Section LimitPrefix.
Context {doc : Type}.

(** X13: a limit stream built with [n >= 0] returns the first [n]
    results of its upstream and after them sentinels: its first [k]
    results are the first [min k n] upstream results followed by [k - n]
    sentinels.  A negative [n] is refused by the constructor. *)
Theorem limit_yields_prefix_of_upstream (up : json_stream_t doc) (n : Z) :
  ((0 <= n)%Z ->
   forall k,
     fst (run Limit.next k {| Limit.stream := up; Limit.limit := n |})
     = fst (run JsonStream.next (min k (Z.to_nat n)) up)
       ++ replicate (k - Z.to_nat n) None)
  /\ ((n < 0)%Z -> Limit.limit_stream up n = None).
Proof.
  split.
  - intros Hn k. revert up n Hn. induction k as [|k IH]; intros up n Hn; [done|].
    cbn [run]. unfold Limit.next at 1. cbn [Limit.limit Limit.stream].
    destruct (Z.eqb_spec n 0) as [->|Hne].
    + specialize (IH up 0%Z Hn).
      destruct (run Limit.next k _) as [rest w']. cbn [fst] in *.
      rewrite IH. change (Z.to_nat 0) with 0.
      rewrite !Nat.min_0_r, !Nat.sub_0_r. done.
    + replace (Z.to_nat n) with (S (Z.to_nat (n - 1))) by lia.
      rewrite <- Nat.succ_min_distr, Nat.sub_succ. cbn [run].
      destruct (JsonStream.next up) as [res up'].
      specialize (IH up' (n - 1)%Z ltac:(lia)).
      destruct (run Limit.next k _) as [rest w']. cbn [fst] in *.
      rewrite IH. by destruct (run JsonStream.next _ up').
  - intros Hn. unfold Limit.limit_stream.
    destruct (Z.leb_spec 0 n); [lia | done].
Qed.

End LimitPrefix.

Section MultiplexerBuffer.
Context {doc : Type}.
Implicit Types (m : Multiplexer.stream_multiplexer_t doc)
  (σ : Multiplexer.shared_t doc).

Lemma stream_t_next_grows m index :
  Multiplexer.data m
    `prefix_of` Multiplexer.data (snd (fst (Multiplexer.next m index)))
  /\ index <= snd (Multiplexer.next m index).
Proof.
  unfold Multiplexer.next.
  destruct (read_until_calls (S index - length (Multiplexer.data m)) m)
    as (j & _ & Hdata & _).
  destruct (Multiplexer.read_until _ m) as [[|] m']; simpl in *;
    (split; [rewrite Hdata; by apply prefix_app_r | lia]).
Qed.

(** X14: whatever the consumers do, the shared buffer only grows at its
    end and no consumer's index moves back: after any schedule the old
    buffer is a prefix of the new one, every consumer is still there and
    its index is at least what it was. *)
Theorem multiplexer_buffer_only_grows schedule σ :
  Multiplexer.data (Multiplexer.parent σ)
    `prefix_of`
    Multiplexer.data (Multiplexer.parent (snd (Multiplexer.run_schedule schedule σ)))
  /\ forall c index,
       Multiplexer.indices σ !! c = Some index ->
       exists index',
         Multiplexer.indices (snd (Multiplexer.run_schedule schedule σ)) !! c
         = Some index'
         /\ index <= index'.
Proof.
  revert σ. induction schedule as [|c later IH]; intros σ.
  - simpl. split; [done|]. intros c index Hc. exists index. split; [done | lia].
  - cbn [Multiplexer.run_schedule]. unfold Multiplexer.consumer_next.
    destruct (Multiplexer.indices σ !! c) as [index|] eqn:Hc; [|apply IH].
    destruct (stream_t_next_grows (Multiplexer.parent σ) index) as [Hpre Hidx].
    destruct (Multiplexer.next (Multiplexer.parent σ) index)
      as [[res m'] index'].
    simpl in Hpre, Hidx.
    destruct (IH {| Multiplexer.parent := m';
                    Multiplexer.indices := <[c := index']> (Multiplexer.indices σ) |})
      as [Hpre' Hidx'].
    destruct (Multiplexer.run_schedule later _) as [log σ']. simpl in *.
    split; [by etransitivity|].
    intros c' i Hc'. destruct (decide (c = c')) as [<-|Hne].
    + destruct (Hidx' c index') as (i' & Hi' & Hle).
      { apply list_lookup_insert_eq. by eapply lookup_lt_Some. }
      exists i'. split; [done|]. assert (i = index) by congruence. lia.
    + apply Hidx'. by rewrite list_lookup_insert_ne.
Qed.

(** X15: a consumer whose index is behind the end of the buffer replays
    the buffer: its next [j] calls, as long as they stay inside the
    buffer, return the buffered documents from its index on, leave the
    multiplexer and its upstream untouched and move only its own index. *)
Theorem consumer_replays_buffer σ c index j :
  Multiplexer.indices σ !! c = Some index ->
  index + j <= length (Multiplexer.data (Multiplexer.parent σ)) ->
  Multiplexer.run_schedule (replicate j c) σ
  = (map (fun d => (c, Some d))
         (take j (drop index (Multiplexer.data (Multiplexer.parent σ)))),
     {| Multiplexer.parent := Multiplexer.parent σ;
        Multiplexer.indices := <[c := index + j]> (Multiplexer.indices σ) |}).
Proof.
  revert σ index. induction j as [|j IH]; intros σ index Hc Hin.
  - simpl. rewrite Nat.add_0_r, list_insert_id by done. by destruct σ.
  - cbn [replicate Multiplexer.run_schedule]. unfold Multiplexer.consumer_next.
    rewrite Hc, stream_t_next_unfold. case_decide; [lia|].
    destruct (lookup_lt_is_Some_2 (Multiplexer.data (Multiplexer.parent σ)) index)
      as [d Hd]; [lia|].
    rewrite (IH _ (S index)); cbn [Multiplexer.parent Multiplexer.indices].
    + rewrite Hd, list_insert_insert_eq, (drop_S _ d index) by done.
      simpl. by replace (S (index + j)) with (index + S j) by lia.
    + apply list_lookup_insert_eq. by eapply lookup_lt_Some.
    + lia.
Qed.

(** X16: a consumer that is not past the end of the buffer calls the
    upstream at most once in a call to [next()], and the buffer gains at
    most one document; only a consumer standing at the end calls it. *)
Theorem stream_t_next_calls_upstream_at_most_once m index :
  index <= length (Multiplexer.data m) ->
  let m' := snd (fst (Multiplexer.next m index)) in
  calls (Multiplexer.stream m')
  = calls (Multiplexer.stream m)
    + (if decide (index = length (Multiplexer.data m)) then 1 else 0)
  /\ length (Multiplexer.data m') <= S (length (Multiplexer.data m)).
Proof.
  intros Hin. cbv zeta. rewrite stream_t_next_unfold.
  case_decide as Hle; case_decide as Heq; try lia.
  - unfold Multiplexer.maybe_read_more.
    pose proof (next_calls (Multiplexer.stream m)) as Hcalls.
    destruct (JsonStream.next (Multiplexer.stream m)) as [[json|] up'];
      simpl in Hcalls.
    + rewrite stream_t_next_unfold. cbn [Multiplexer.data].
      rewrite length_app. simpl. case_decide; [lia|]. simpl.
      rewrite length_app. simpl. lia.
    + simpl. lia.
  - simpl. lia.
Qed.

End MultiplexerBuffer.

Section FilterEdges.
Context {doc : Type}.

(** X17: the two constant predicates.  A filter stream whose predicate
    accepts every document returns what its upstream returns, one
    upstream call for each of its own.  When the predicate rejects every
    document the upstream has, the first call runs through the whole
    upstream and returns the sentinel. *)
Theorem filter_with_constant_predicate :
  (forall fuel (w : Filter.filter_stream_t doc),
      (forall d, Filter.p w d = true) ->
      Filter.next (S fuel) w
      = Some (fst (JsonStream.next (Filter.stream w)),
              {| Filter.stream := snd (JsonStream.next (Filter.stream w));
                 Filter.p := Filter.p w |}))
  /\ (forall n (up : json_stream_t doc) (p : doc -> bool) data up',
         drain (total JsonStream.next) n up = Some (data, up') ->
         Forall (fun d => p d = false) data ->
         forall fuel, n <= fuel ->
           Filter.next fuel (Filter.filter_stream up p)
           = Some (None, Filter.filter_stream up' p)).
Proof.
  split.
  - intros fuel w Hp. rewrite filter_next_succ.
    destruct (JsonStream.next (Filter.stream w)) as [[json|] up']; [|done].
    by rewrite Hp.
  - unfold Filter.filter_stream.
    induction n as [|n IH]; intros up p data up'; [discriminate|].
    rewrite drain_succ. unfold total at 1.
    destruct (JsonStream.next up) as [[json|] up1] eqn:Hnext.
    + destruct (drain (total JsonStream.next) n up1) as [[data1 up2]|] eqn:Hrest;
        [|discriminate].
      intros [= <- <-] Hall [|fuel] Hfuel; [lia|].
      apply Forall_cons in Hall as [Hjson Hall].
      rewrite filter_next_succ. cbn [Filter.stream Filter.p].
      rewrite Hnext, Hjson. eapply IH; [done | done | lia].
    + intros [= <- <-] _ [|fuel] Hfuel; [lia|].
      rewrite filter_next_succ. cbn [Filter.stream Filter.p]. by rewrite Hnext.
Qed.

End FilterEdges.

(** * The further properties at sample inputs *)

Section FurtherInstances.

Lemma put_in_scope_then_get_witness :
  exists scopes',
    VariableScope.put_in_scope "x" 9 Samples.scopes = Some scopes'
    /\ VariableScope.get "x" scopes' = Some 9
    /\ VariableScope.is_in_scope "x" scopes' = true
    /\ (forall other, other <> "x" ->
          VariableScope.get other scopes' = VariableScope.get other Samples.scopes)
    /\ length scopes' = length Samples.scopes.
Proof. apply put_in_scope_then_get. discriminate. Defined.

Lemma get_fails_exactly_out_of_scope_witness :
  VariableScope.get "w" Samples.scopes = None.
Proof.
  destruct (get_fails_exactly_out_of_scope "w" Samples.scopes) as [[_ Hout] _].
  apply Hout. reflexivity.
Defined.

Lemma dump_after_put_in_scope_witness :
  VariableScope.dump
    [ <["x" := 9]> {["y" := 1]}; {["x" := 2]}; <["x" := 3]> {["z" := 4]} ]
  = <["x" := 9]> (VariableScope.dump Samples.scopes).
Proof. apply dump_after_put_in_scope. reflexivity. Defined.

Lemma get_value_defined_iff_has_value_witness :
  ImplicitValue.has_value [Some 1; None] = Some true.
Proof.
  destruct (get_value_defined_iff_has_value [Some 1; None]) as [[Hhas _] _].
  apply Hhas. by exists 1.
Defined.

Lemma from_stream_collects_until_first_sentinel_witness :
  InMemory.from_stream 3 Samples.short_upstream
  = Some ([1; 2], skip JsonStream.next 3 Samples.short_upstream).
Proof.
  apply from_stream_collects_until_first_sentinel.
  repeat split; simpl; lia.
Defined.

Lemma in_memory_replays_data_witness :
  exists up',
    InMemory.from_stream 5
      (InMemory.in_memory_stream_t (map Some [1; 2] ++ [None; Some 3]))
    = Some ([1; 2], up')
    /\ calls up' = 3.
Proof. apply in_memory_replays_data; [simpl; lia | reflexivity]. Defined.

Example in_memory_null_entry_sample :
  fst (run JsonStream.next 4
         (InMemory.in_memory_stream_t [Some 1; None; Some 2]))
  = [Some 1; None; Some 2; None]
  /\ fst <$> InMemory.from_stream 5
               (InMemory.in_memory_stream_t [Some 1; None; Some 2])
     = Some [1].
Proof. by vm_compute. Qed.


Example union_drain_sample :
  fst <$> drain (total Union.next) 4
            (Samples.objects, Union.union_stream [0; 1; 2])
  = Some [1; 2; 3]
  /\ fst <$> drain (total Union.next) 4
               (Samples.objects, Union.union_stream [0; 0; 2])
     = Some [1; 2; 3].
Proof. by vm_compute. Qed.

Lemma exhausted_union_and_concat_mapping_are_inert_witness :
  run Union.next 3
    (snd (Union.next (Samples.objects, Union.union_stream [1])))
  = (replicate 3 None,
     snd (Union.next (Samples.objects, Union.union_stream [1]))).
Proof.
  destruct (@exhausted_union_and_concat_mapping_are_inert nat) as [Hunion _].
  apply (Hunion (Samples.objects, Union.union_stream [1])).
  reflexivity.
Defined.

Lemma limit_yields_prefix_of_upstream_witness :
  fst (run Limit.next 4 {| Limit.stream := Samples.upstream; Limit.limit := 2 |})
  = fst (run JsonStream.next (min 4 (Z.to_nat 2)) Samples.upstream)
    ++ replicate (4 - Z.to_nat 2) None.
Proof. apply limit_yields_prefix_of_upstream. lia. Defined.

Lemma multiplexer_buffer_only_grows_witness :
  let σ := snd (Multiplexer.run_schedule [0; 0; 1] Samples.two_readers) in
  let σ' := snd (Multiplexer.run_schedule [0; 1; 1; 0] σ) in
  ([1; 2] `prefix_of` Multiplexer.data (Multiplexer.parent σ')
   /\ Multiplexer.data (Multiplexer.parent σ') = [1; 2; 3; 4])
  /\ (exists index', Multiplexer.indices σ' !! 0 = Some index' /\ 2 <= index')
  /\ (exists index', Multiplexer.indices σ' !! 1 = Some index' /\ 1 <= index')
  /\ Multiplexer.indices σ' = [4; 3].
Proof.
  intros σ σ'.
  destruct (multiplexer_buffer_only_grows [0; 1; 1; 0] σ) as [Hprefix Hindex].
  split; [split; [exact Hprefix | reflexivity]|].
  split; [apply Hindex; reflexivity|].
  split; [apply Hindex; reflexivity | reflexivity].
Defined.

Lemma consumer_replays_buffer_witness :
  Multiplexer.run_schedule (replicate 2 1)
    (snd (Multiplexer.run_schedule [0; 0] Samples.two_consumers))
  = (map (fun d => (1, Some d))
       (take 2 (drop 0 (Multiplexer.data
                          (Multiplexer.parent
                             (snd (Multiplexer.run_schedule [0; 0]
                                     Samples.two_consumers)))))),
     {| Multiplexer.parent :=
          Multiplexer.parent
            (snd (Multiplexer.run_schedule [0; 0] Samples.two_consumers));
        Multiplexer.indices :=
          <[1 := 0 + 2]>
            (Multiplexer.indices
               (snd (Multiplexer.run_schedule [0; 0] Samples.two_consumers))) |}).
Proof. apply consumer_replays_buffer; [reflexivity | vm_compute; lia]. Defined.

Example consumer_replay_sample :
  fst (Multiplexer.run_schedule (replicate 2 1)
         (snd (Multiplexer.run_schedule [0; 0] Samples.two_consumers)))
  = [(1, Some 1); (1, Some 2)]
  /\ calls (Multiplexer.stream
              (Multiplexer.parent
                 (snd (Multiplexer.run_schedule [0; 0; 1; 1]
                         Samples.two_consumers))))
     = 2.
Proof. by vm_compute. Qed.

Lemma stream_t_next_calls_upstream_at_most_once_witness :
  let m := Multiplexer.stream_multiplexer Samples.short_upstream in
  let m' := snd (fst (Multiplexer.next m 0)) in
  calls (Multiplexer.stream m')
  = calls (Multiplexer.stream m)
    + (if decide (0 = length (Multiplexer.data m)) then 1 else 0)
  /\ length (Multiplexer.data m') <= S (length (Multiplexer.data m)).
Proof.
  apply (stream_t_next_calls_upstream_at_most_once
           (Multiplexer.stream_multiplexer Samples.short_upstream) 0).
  simpl. lia.
Defined.

Lemma filter_with_constant_predicate_witness :
  Filter.next 3 (Filter.filter_stream Samples.short_upstream (fun _ => false))
  = Some (None,
          Filter.filter_stream (skip JsonStream.next 3 Samples.short_upstream)
            (fun _ => false)).
Proof.
  destruct (@filter_with_constant_predicate nat) as [_ Hreject].
  apply (Hreject 3 _ _ [1; 2]); [reflexivity | by repeat constructor | lia].
Defined.

End FurtherInstances.
